(** * Stellar Merch Shop: the NFC-chip NFT contract (contract.rs)

    Shallow embedding of [src/contracts/stellar-merch-shop/src/contract.rs]
    and [errors.rs].  Contract storage is a record of finite maps, one per
    family of [NFTStorageKey] / [DataKey] entries the operations touch.
    Contract entry points run in a small state/error monad [M]; a panic
    ([panic_with_error!], [unwrap] on [None], a Rust arithmetic overflow, a
    host trap of the crypto primitives) is an [Err].  The host runs every
    call as a transaction: [run] commits the final state of a successful
    call and restores the initial state on any [Err].

    Representation choices:
    - a 65-byte public key ([BytesN<65>]), a 64-byte signature and an
      [Address] are integers ([Z]); only equality is used on them;
    - a [u32]/[u64] is a [Z] in range, Rust's [+]/[-] on them are
      [add_w]/[sub_w] below;
    - [Bytes] are [list Byte.byte]. *)

From Stdlib Require Import ZArith Lia List.
From stdpp Require Import base gmap fin_maps.
Import ListNotations.

Open Scope Z_scope.

(** ** Errors (errors.rs) *)

Inductive NonFungibleTokenError :=
| NonExistentToken
| IncorrectOwner
| InsufficientApproval
| InvalidApprover
| InvalidLiveUntilLedger
| MathOverflow
| TokenIDsAreDepleted
| InvalidAmount
| TokenNotFoundInOwnerList
| TokenNotFoundInGlobalList
| TokenAlreadyMinted
| BaseUriMaxLenExceeded
| InvalidRoyaltyAmount
| UnsetMetadata
| InvalidSignature.

(** The [#[repr(u32)]] codes of the contract errors. *)
Definition error_code (e : NonFungibleTokenError) : Z :=
  match e with
  | NonExistentToken => 200 | IncorrectOwner => 201
  | InsufficientApproval => 202 | InvalidApprover => 203
  | InvalidLiveUntilLedger => 204 | MathOverflow => 205
  | TokenIDsAreDepleted => 206 | InvalidAmount => 207
  | TokenNotFoundInOwnerList => 208 | TokenNotFoundInGlobalList => 209
  | TokenAlreadyMinted => 210 | BaseUriMaxLenExceeded => 211
  | InvalidRoyaltyAmount => 212 | UnsetMetadata => 213
  | InvalidSignature => 214
  end.

(** Ways a call aborts: a contract error raised by [panic_with_error!], a
    Rust panic on integer overflow ("attempt to subtract with overflow"),
    a Rust panic on [Option::unwrap] of [None], a host trap inside a host
    function (e.g. [secp256k1_recover] on a malformed signature). *)
Inductive Error :=
| Contract (e : NonFungibleTokenError)
| ArithPanic
| UnwrapNone
| HostError.

Inductive result (A : Type) :=
| Ok (a : A)
| Err (e : Error).
Arguments Ok {A} a.
Arguments Err {A} e.

(** ** Contract storage *)

(** Instance storage ([DataKey::NextTokenId], [DataKey::MaxTokens]) and
    persistent storage keyed by [NFTStorageKey]: [ChipNonceByPublicKey],
    [Owner], [PublicKey], [TokenIdByPublicKey], [Balance].  The metadata
    entries ([Admin], [Name], [Symbol], [URI]) are written only by the
    constructor and touched by none of [mint], [claim] and [transfer]; they
    are the separate record [Metadata] below. *)
Record State := mkState {
  next_token_id : option Z;
  max_tokens : option Z;
  chip_nonce : gmap Z Z;            (* ChipNonceByPublicKey(pk) -> u32 *)
  owner : gmap Z Z;                 (* Owner(token_id) -> Address *)
  public_key_of : gmap Z Z;         (* PublicKey(token_id) -> BytesN<65> *)
  token_id_by_public_key : gmap Z Z; (* TokenIdByPublicKey(pk) -> u64 *)
  balances : gmap Z Z               (* Balance(Address) -> u32 *)
}.

Definition set_next_token_id (v : Z) (s : State) : State :=
  mkState (Some v) (max_tokens s) (chip_nonce s) (owner s) (public_key_of s)
    (token_id_by_public_key s) (balances s).
Definition set_chip_nonce (pk v : Z) (s : State) : State :=
  mkState (next_token_id s) (max_tokens s) (<[pk := v]> (chip_nonce s))
    (owner s) (public_key_of s) (token_id_by_public_key s) (balances s).
Definition set_owner (id a : Z) (s : State) : State :=
  mkState (next_token_id s) (max_tokens s) (chip_nonce s) (<[id := a]> (owner s))
    (public_key_of s) (token_id_by_public_key s) (balances s).
Definition set_public_key (id pk : Z) (s : State) : State :=
  mkState (next_token_id s) (max_tokens s) (chip_nonce s) (owner s)
    (<[id := pk]> (public_key_of s)) (token_id_by_public_key s) (balances s).
Definition set_token_id_by_public_key (pk id : Z) (s : State) : State :=
  mkState (next_token_id s) (max_tokens s) (chip_nonce s) (owner s)
    (public_key_of s) (<[pk := id]> (token_id_by_public_key s)) (balances s).
Definition set_balance (a v : Z) (s : State) : State :=
  mkState (next_token_id s) (max_tokens s) (chip_nonce s) (owner s)
    (public_key_of s) (token_id_by_public_key s) (<[a := v]> (balances s)).

(** ** The contract monad *)

Definition M (A : Type) := State -> result (State * A).

Definition ret {A} (a : A) : M A := fun s => Ok (s, a).
Definition bind {A B} (m : M A) (k : A -> M B) : M B :=
  fun s => match m s with Ok (s', a) => k a s' | Err e => Err e end.
Definition fail {A} (e : Error) : M A := fun _ => Err e.
Definition panic_with_error {A} (e : NonFungibleTokenError) : M A :=
  fail (Contract e).
Definition get : M State := fun s => Ok (s, s).
Definition modify (f : State -> State) : M unit := fun s => Ok (f s, tt).
Definition lift {A} (r : result A) : M A :=
  fun s => match r with Ok a => Ok (s, a) | Err e => Err e end.

Notation "x <- m ;; k" := (bind m (fun x => k))
  (at level 100, m at next level, right associativity).
Notation "m ;;; k" := (bind m (fun _ => k))
  (at level 100, right associativity).

(** [Option::unwrap]. *)
Definition unwrap {A} (o : option A) : M A :=
  match o with Some a => ret a | None => fail UnwrapNone end.

(** [Option::unwrap_or_else(|| panic_with_error!(e, err))]. *)
Definition unwrap_or_panic {A} (o : option A) (err : NonFungibleTokenError) : M A :=
  match o with Some a => ret a | None => panic_with_error err end.

(** [Option::unwrap_or(d)]. *)
Definition unwrap_or {A} (o : option A) (d : A) : A :=
  match o with Some a => a | None => d end.

(** ** Bytes, hashing, signature recovery *)

Definition byte_of_Z (z : Z) : Byte.byte :=
  match Byte.of_N (Z.to_N (z mod 256)) with Some b => b | None => Byte.x00 end.

(** Big-endian bytes of a [w]-byte unsigned integer ([to_be_bytes]). *)
Fixpoint be_bytes (w : nat) (z : Z) : list Byte.byte :=
  match w with
  | O => []
  | S w' => byte_of_Z (Z.shiftr z (8 * Z.of_nat w')) :: be_bytes w' z
  end.

(** [nonce.to_xdr(&e)] for a [u32]: the SDK converts the value to a [Val]
    and serializes it as an XDR [ScVal]: the 4-byte big-endian union
    discriminant [SCV_U32 = 3] followed by the 4-byte big-endian value. *)
Definition u32_to_xdr (n : Z) : list Byte.byte :=
  [Byte.x00; Byte.x00; Byte.x00; Byte.x03] ++ be_bytes 4 n.

(** The bytes hashed by [verify_chip_signature] (contract.rs 239-241). *)
Definition signed_payload (message : list Byte.byte) (nonce : Z) : list Byte.byte :=
  [] ++ message ++ u32_to_xdr nonce.

(** The 4-byte big-endian nonce encoding named by the spec, for comparison. *)
Definition nonce_be4 (n : Z) : list Byte.byte := be_bytes 4 n.

Section Contract.

(** Host primitives: [e.crypto().sha256] and [e.crypto().secp256k1_recover]
    ([None]: the host traps, e.g. on a bad recovery id or a malformed
    signature). *)
Variable sha256 : list Byte.byte -> Z.
Variable secp256k1_recover : Z -> Z -> Z -> option Z.

(** Whether the build checks integer overflow (the [overflow-checks] cargo
    profile flag: on in debug builds and in the usual Soroban release
    profile); when off, [u32] arithmetic wraps. *)
Variable overflow_checks : bool.

(** Rust's [a + b] and [a - b] on a [w]-bit unsigned integer. *)
Definition add_w (w : Z) (a b : Z) : result Z :=
  if overflow_checks then
    (if a + b <? 2 ^ w then Ok (a + b) else Err ArithPanic)
  else Ok ((a + b) mod 2 ^ w).
Definition sub_w (w : Z) (a b : Z) : result Z :=
  if overflow_checks then
    (if a - b <? 0 then Err ArithPanic else Ok (a - b))
  else Ok ((a - b) mod 2 ^ w).

(** [verify_chip_signature] (contract.rs 219-252). *)
Definition verify_chip_signature (message : list Byte.byte) (signature recovery_id
    public_key nonce : Z) : M unit :=
  s <- get ;;
  let stored_nonce := unwrap_or (chip_nonce s !! public_key) 0 in
  if nonce <=? stored_nonce then panic_with_error InvalidSignature else
  let message_hash := sha256 (signed_payload message nonce) in
  recovered <- lift (match secp256k1_recover message_hash signature recovery_id with
                     | Some k => Ok k | None => Err HostError end) ;;
  if negb (recovered =? public_key) then panic_with_error InvalidSignature else
  modify (set_chip_nonce public_key nonce).

(** [__constructor] (contract.rs 31-40), on an empty storage. *)
Definition construct (max : Z) : State :=
  mkState (Some 0) (Some max) ∅ ∅ ∅ ∅ ∅.

(** [mint] (contract.rs 42-84); the [Mint] event is not modelled. *)
Definition mint (message : list Byte.byte) (signature recovery_id public_key nonce : Z)
    : M Z :=
  verify_chip_signature message signature recovery_id public_key nonce ;;;
  s <- get ;;
  if bool_decide (is_Some (token_id_by_public_key s !! public_key))
  then panic_with_error TokenAlreadyMinted else
  token_id <- unwrap (next_token_id s) ;;
  max <- unwrap (max_tokens s) ;;
  if max <=? token_id then panic_with_error TokenIDsAreDepleted else
  next <- lift (add_w 64 token_id 1) ;;
  modify (set_next_token_id next) ;;;
  modify (set_token_id_by_public_key public_key token_id) ;;;
  modify (set_public_key token_id public_key) ;;;
  ret token_id.

(** [balance] (contract.rs 86-91). *)
Definition balance (s : State) (a : Z) : Z := unwrap_or (balances s !! a) 0.

(** [owner_of] (contract.rs 93-97). *)
Definition owner_of (token_id : Z) : M Z :=
  s <- get ;; unwrap_or_panic (owner s !! token_id) NonExistentToken.

(** [get_nonce] (contract.rs 170-176). *)
Definition get_nonce (s : State) (public_key : Z) : Z :=
  unwrap_or (chip_nonce s !! public_key) 0.

(** [claim] (contract.rs 99-131); the [Claim] event is not modelled. *)
Definition claim (claimant : Z) (message : list Byte.byte)
    (signature recovery_id public_key nonce : Z) : M Z :=
  verify_chip_signature message signature recovery_id public_key nonce ;;;
  s <- get ;;
  token_id <- unwrap_or_panic (token_id_by_public_key s !! public_key) NonExistentToken ;;
  if bool_decide (is_Some (owner s !! token_id))
  then panic_with_error TokenAlreadyMinted else
  modify (set_owner token_id claimant) ;;;
  s <- get ;;
  let claimant_balance := balance s claimant in
  b <- lift (add_w 32 claimant_balance 1) ;;
  modify (set_balance claimant b) ;;;
  ret token_id.

(** [transfer] (contract.rs 133-168); the [Transfer] event is not
    modelled. *)
Definition transfer (from to token_id : Z) (message : list Byte.byte)
    (signature recovery_id public_key nonce : Z) : M unit :=
  verify_chip_signature message signature recovery_id public_key nonce ;;;
  s <- get ;;
  stored_public_key <- unwrap_or_panic (public_key_of s !! token_id) NonExistentToken ;;
  if negb (stored_public_key =? public_key) then panic_with_error InvalidSignature else
  cur <- owner_of token_id ;;
  if negb (cur =? from) then panic_with_error IncorrectOwner else
  modify (set_owner token_id to) ;;;
  s <- get ;;
  let from_balance := balance s from in
  fb <- lift (sub_w 32 from_balance 1) ;;
  modify (set_balance from fb) ;;;
  s <- get ;;
  let to_balance := balance s to in
  tb <- lift (add_w 32 to_balance 1) ;;
  modify (set_balance to tb).

(** A state-changing contract call with its arguments. *)
Inductive Call :=
| CMint (message : list Byte.byte) (signature recovery_id public_key nonce : Z)
| CClaim (claimant : Z) (message : list Byte.byte) (signature recovery_id public_key nonce : Z)
| CTransfer (from to token_id : Z) (message : list Byte.byte)
    (signature recovery_id public_key nonce : Z).

Definition call_public_key (c : Call) : Z :=
  match c with
  | CMint _ _ _ pk _ | CClaim _ _ _ _ pk _ | CTransfer _ _ _ _ _ _ pk _ => pk
  end.
Definition call_nonce (c : Call) : Z :=
  match c with
  | CMint _ _ _ _ n | CClaim _ _ _ _ _ n | CTransfer _ _ _ _ _ _ _ n => n
  end.

(** The contract body of a call; [None] for a call returning [()]. *)
Definition exec (c : Call) : M (option Z) :=
  match c with
  | CMint m sg r pk n => id <- mint m sg r pk n ;; ret (Some id)
  | CClaim a m sg r pk n => id <- claim a m sg r pk n ;; ret (Some id)
  | CTransfer f t id m sg r pk n => transfer f t id m sg r pk n ;;; ret None
  end.

(** The host's transaction: commit on success, roll back on abort. *)
Definition run (c : Call) (s : State) : State * result (option Z) :=
  match exec c s with
  | Ok (s', v) => (s', Ok v)
  | Err e => (s, Err e)
  end.

(** A successful call. *)
Definition step (s : State) (c : Call) (s' : State) : Prop :=
  exists v, exec c s = Ok (s', v).

(** States reachable from [construct] by successful calls. *)
Inductive reachable : State -> Prop :=
| reach_init max : 0 <= max < 2 ^ 64 -> reachable (construct max)
| reach_step s c s' : reachable s -> step s c s' -> reachable s'.

(** Later states along successful calls. *)
Inductive steps : State -> State -> Prop :=
| steps_refl s : steps s s
| steps_cons s c s' s'' : step s c s' -> steps s' s'' -> steps s s''.

End Contract.

(** ** Metadata and the read-only entry points *)

(** The instance-storage entries [DataKey::Admin], [NFTStorageKey::Name],
    [Symbol] and [URI].  They are written by [__constructor] only; none of
    [mint], [claim] and [transfer] reads or writes them, so they are kept
    apart from [State].  A Soroban [String] is its list of bytes. *)
Record Metadata := mkMetadata {
  md_admin : option Z;
  md_name : option (list Byte.byte);
  md_symbol : option (list Byte.byte);
  md_uri : option (list Byte.byte)
}.

(** [__constructor] (contract.rs 31-40), on an empty storage. *)
Definition __constructor (admin : Z) (name symbol uri : list Byte.byte) (max_tokens : Z)
    : Metadata * State :=
  (mkMetadata (Some admin) (Some name) (Some symbol) (Some uri), construct max_tokens).

(** [name] (contract.rs 178-183). *)
Definition name (md : Metadata) : M (list Byte.byte) := unwrap (md_name md).

(** [symbol] (contract.rs 185-190). *)
Definition symbol (md : Metadata) : M (list Byte.byte) := unwrap (md_symbol md).

(** [token_uri] (contract.rs 192-212): the token must have a bound key;
    the result is the bytes of the base URI, a ['/'] and the 8 bytes of
    [token_id.to_be_bytes()]. *)
Definition token_uri (md : Metadata) (token_id : Z) : M (list Byte.byte) :=
  s <- get ;;
  _public_key <- unwrap_or_panic (public_key_of s !! token_id) NonExistentToken ;;
  base_uri <- unwrap (md_uri md) ;;
  ret (base_uri ++ [Byte.x2f] ++ be_bytes 8 token_id).

(** The unsigned integer of a big-endian byte string ([u64::from_be_bytes]
    for 8 bytes), to read a token id back out of a URI. *)
Fixpoint from_be_bytes (l : list Byte.byte) : Z :=
  match l with
  | [] => 0
  | b :: l' => Z.of_N (Byte.to_N b) * 2 ^ (8 * Z.of_nat (length l')) + from_be_bytes l'
  end.

(** ** Invariants of reachable states *)

(** Token ids in use are exactly [0 .. next_token_id - 1], the counter
    stays within the cap, and [TokenIdByPublicKey] is the inverse of
    [PublicKey]. *)
Definition ids_inv (s : State) : Prop :=
  exists n m, next_token_id s = Some n /\ max_tokens s = Some m /\
    0 <= n <= m /\ m < 2 ^ 64 /\
    (forall i, is_Some (public_key_of s !! i) <-> 0 <= i < n) /\
    (forall k i, token_id_by_public_key s !! k = Some i <-> public_key_of s !! i = Some k).

(** The number of tokens owned by [a]. *)
Definition owned_count (s : State) (a : Z) : Z :=
  Z.of_nat (size (filter (fun kv : Z * Z => kv.2 = a) (owner s))).

(** The number of tokens with an owner. *)
Definition owned_tokens (s : State) : Z := Z.of_nat (size (owner s)).

(** The sum of all stored balances. *)
Definition balance_sum (s : State) : Z :=
  map_fold (fun _ v acc => v + acc) 0 (balances s).

(** Each address's balance counts its tokens, and the balances add up to
    the number of owned tokens. *)
Definition balance_inv (s : State) : Prop :=
  (forall a, balance s a = owned_count s a) /\ balance_sum s = owned_tokens s.

(** ** Concrete host used by the examples and witnesses

    A toy host: the hash is constant and a signature "recovers" to the key
    it carries.  Only executions are evaluated with it; the theorems hold
    for every [sha256] and [secp256k1_recover]. *)
Definition toy_sha256 (_ : list Byte.byte) : Z := 0.
Definition toy_recover (_ : Z) (signature : Z) (recovery_id : Z) : option Z :=
  if recovery_id <? 4 then Some signature else None.

Definition toy_run (c : Call) (s : State) := run toy_sha256 toy_recover true c s.

Definition K1 : Z := 7.
Definition addrA : Z := 100.
Definition addrB : Z := 200.
Definition m1 : list Byte.byte := [Byte.x6d; Byte.x31].

Definition sc1 := toy_run (CMint m1 K1 0 K1 1) (construct 2).
Definition sc2 := toy_run (CClaim addrA m1 K1 0 K1 2) (fst sc1).
Definition sc4 := toy_run (CTransfer addrA addrB 0 m1 K1 0 K1 4) (fst sc2).
Definition sc6 := fst (toy_run (CMint m1 8 0 8 1) (fst (toy_run (CMint m1 7 0 7 1) (construct 2)))).

(** States off the invariant: A's stored balance at the [u32] maximum
    with an unclaimed token, and A owning token 0 with a stored balance
    of 0. *)
Definition s_big := set_balance addrA 4294967295 (fst sc1).
Definition s_bad := set_balance addrA 0 (fst sc2).

(** Deployment metadata with base URI ["ab"]. *)
Definition md1 : Metadata :=
  fst (__constructor addrA [Byte.x4d] [Byte.x53] [Byte.x61; Byte.x62] 2).

(** ** The scenarios of the specification, on the toy host *)

(** Scenario 1: the first mint returns id 0 and records nonce 1. *)
Example scenario1 : snd sc1 = Ok (Some 0) /\ get_nonce (fst sc1) K1 = 1.
Proof. vm_compute. split; reflexivity. Qed.

(** Scenario 2: claim by A. *)
Example scenario2 : snd sc2 = Ok (Some 0) /\ owner (fst sc2) !! 0 = Some addrA
  /\ balance (fst sc2) addrA = 1.
Proof. vm_compute. repeat split. Qed.

(** Scenario 3: a repeat claim fails with already-minted. *)
Example scenario3 : snd (toy_run (CClaim addrB m1 K1 0 K1 3) (fst sc2))
  = Err (Contract TokenAlreadyMinted).
Proof. vm_compute. reflexivity. Qed.

(** Scenario 4: transfer A -> B. *)
Example scenario4 : snd sc4 = Ok None /\ owner (fst sc4) !! 0 = Some addrB
  /\ balance (fst sc4) addrA = 0 /\ balance (fst sc4) addrB = 1.
Proof. vm_compute. repeat split. Qed.

(** Scenario 5: a consumed nonce is refused. *)
Example scenario5 : snd (toy_run (CTransfer addrB addrA 0 m1 K1 0 K1 3) (fst sc4))
  = Err (Contract InvalidSignature).
Proof. vm_compute. reflexivity. Qed.

(** Scenario 6: a cap of 2; the third mint is refused. *)
Example scenario6 : snd (toy_run (CMint m1 9 0 9 1) sc6) = Err (Contract TokenIDsAreDepleted)
  /\ next_token_id sc6 = Some 2.
Proof. vm_compute. split; reflexivity. Qed.

(** ** Proofs *)

Ltac munfold :=
  unfold bind, get, ret, modify, lift, fail, panic_with_error, unwrap,
    unwrap_or_panic in *.

(** Destruct every [match] of the goal and the hypotheses. *)
Ltac msplit :=
  repeat (munfold; case_match; simplify_eq/=; try discriminate).

Section Proofs.

Variable sha256 : list Byte.byte -> Z.
Variable secp256k1_recover : Z -> Z -> Z -> option Z.
Variable overflow_checks : bool.

Local Abbreviation Verify := (verify_chip_signature sha256 secp256k1_recover).
Local Abbreviation Exec := (exec sha256 secp256k1_recover overflow_checks).
Local Abbreviation Run := (run sha256 secp256k1_recover overflow_checks).
Local Abbreviation Step := (step sha256 secp256k1_recover overflow_checks).
Local Abbreviation Steps := (steps sha256 secp256k1_recover overflow_checks).

Lemma verify_stale s message signature recovery_id public_key nonce :
  nonce <= get_nonce s public_key ->
  Verify message signature recovery_id public_key nonce s = Err (Contract InvalidSignature).
Proof.
  intros Hle. unfold verify_chip_signature, get_nonce in *. munfold. simpl.
  destruct (Z.leb_spec nonce (unwrap_or (chip_nonce s !! public_key) 0)); [done | lia].
Qed.

(** What a successful verification did. *)
Lemma verify_ok s s' u message signature recovery_id public_key nonce :
  Verify message signature recovery_id public_key nonce s = Ok (s', u) ->
  get_nonce s public_key < nonce /\
  secp256k1_recover (sha256 (signed_payload message nonce)) signature recovery_id
    = Some public_key /\
  s' = set_chip_nonce public_key nonce s.
Proof.
  unfold verify_chip_signature, get_nonce. munfold. simpl.
  destruct (Z.leb_spec nonce (unwrap_or (chip_nonce s !! public_key) 0)); [done|].
  destruct (secp256k1_recover _ _ _) as [k|] eqn:Hr; [|done].
  destruct (Z.eqb_spec k public_key); simpl; [|done].
  intros; simplify_eq. auto.
Qed.

Lemma exec_stale s c :
  call_nonce c <= get_nonce s (call_public_key c) ->
  Exec c s = Err (Contract InvalidSignature).
Proof.
  intros Hle. destruct c; simpl in *;
    unfold exec, mint, claim, transfer; munfold;
    rewrite verify_stale by done; reflexivity.
Qed.

(** Case analysis on a verification inside an operation. *)
Ltac verify_cases :=
  match goal with
  | |- context [verify_chip_signature ?h ?r ?m ?sg ?rid ?pk ?n ?s] =>
      let Hv := fresh "Hv" in
      let Hlt := fresh "Hlt" in
      let Hrec := fresh "Hrec" in
      destruct (verify_chip_signature h r m sg rid pk n s) as [[? []]|?] eqn:Hv;
      [apply verify_ok in Hv as (Hlt & Hrec & ->) | done]
  end.

(** A successful [mint]. *)
Lemma mint_ok s s' id message signature recovery_id public_key nonce :
  mint sha256 secp256k1_recover overflow_checks message signature recovery_id
    public_key nonce s = Ok (s', id) ->
  get_nonce s public_key < nonce /\
  secp256k1_recover (sha256 (signed_payload message nonce)) signature recovery_id
    = Some public_key /\
  token_id_by_public_key s !! public_key = None /\
  next_token_id s = Some id /\
  (exists max, max_tokens s = Some max /\ id < max) /\
  exists next, add_w overflow_checks 64 id 1 = Ok next /\
    s' = set_public_key id public_key (set_token_id_by_public_key public_key id
           (set_next_token_id next (set_chip_nonce public_key nonce s))).
Proof.
  unfold mint. munfold. verify_cases. simpl. msplit.
  intros [=]; subst.
  rewrite bool_decide_eq_false in *; apply eq_None_not_Some in H.
  apply Z.leb_gt in H0. repeat split; eauto.
Qed.

(** A successful [claim]. *)
Lemma claim_ok s s' id claimant message signature recovery_id public_key nonce :
  claim sha256 secp256k1_recover overflow_checks claimant message signature
    recovery_id public_key nonce s = Ok (s', id) ->
  get_nonce s public_key < nonce /\
  secp256k1_recover (sha256 (signed_payload message nonce)) signature recovery_id
    = Some public_key /\
  token_id_by_public_key s !! public_key = Some id /\
  owner s !! id = None /\
  exists b, add_w overflow_checks 32 (balance s claimant) 1 = Ok b /\
    s' = set_balance claimant b (set_owner id claimant (set_chip_nonce public_key nonce s)).
Proof.
  unfold claim, balance. munfold. verify_cases. simpl. msplit.
  intros [=]; subst.
  match goal with H : bool_decide _ = false |- _ =>
    rewrite bool_decide_eq_false in H; apply eq_None_not_Some in H end.
  repeat split; eauto.
Qed.

(** A successful [transfer]. *)
Lemma transfer_ok s s' u from to token_id message signature recovery_id public_key nonce :
  transfer sha256 secp256k1_recover overflow_checks from to token_id message
    signature recovery_id public_key nonce s = Ok (s', u) ->
  get_nonce s public_key < nonce /\
  secp256k1_recover (sha256 (signed_payload message nonce)) signature recovery_id
    = Some public_key /\
  public_key_of s !! token_id = Some public_key /\
  owner s !! token_id = Some from /\
  exists fb tb,
    sub_w overflow_checks 32 (balance s from) 1 = Ok fb /\
    add_w overflow_checks 32 (balance (set_balance from fb s) to) 1 = Ok tb /\
    s' = set_balance to tb (set_balance from fb
           (set_owner token_id to (set_chip_nonce public_key nonce s))).
Proof.
  unfold transfer, owner_of, balance. munfold. verify_cases. simpl. msplit.
  intros [=]; subst.
  repeat match goal with H : negb (_ =? _) = false |- _ =>
    apply negb_false_iff, Z.eqb_eq in H; subst end.
  repeat split; eauto 10.
Qed.

(** A successful call stores exactly its nonce for its key, which was
    fresh. *)
Lemma step_chip_nonce s c s' :
  Step s c s' ->
  get_nonce s (call_public_key c) < call_nonce c /\
  chip_nonce s' = <[call_public_key c := call_nonce c]> (chip_nonce s).
Proof.
  intros [v Hx]. destruct c; simpl in *; unfold exec in Hx; munfold.
  - destruct (mint _ _ _ _ _ _ _ _ _) as [[? ?]|] eqn:Hm; [|done]. simplify_eq.
    apply mint_ok in Hm as (? & _ & _ & _ & _ & ? & _ & ->). auto.
  - destruct (claim _ _ _ _ _ _ _ _ _ _) as [[? ?]|] eqn:Hm; [|done]. simplify_eq.
    apply claim_ok in Hm as (? & _ & _ & _ & ? & _ & ->). auto.
  - destruct (transfer _ _ _ _ _ _ _ _ _ _ _ _) as [[? ?]|] eqn:Hm; [|done].
    simplify_eq.
    apply transfer_ok in Hm as (? & _ & _ & _ & ? & ? & _ & _ & ->). auto.
Qed.

Lemma step_nonce_mono s c s' pk :
  Step s c s' -> get_nonce s pk <= get_nonce s' pk.
Proof.
  intros Hs. apply step_chip_nonce in Hs as [Hlt Heq].
  unfold get_nonce in *. rewrite Heq.
  destruct (decide (call_public_key c = pk)) as [<-|Hne].
  - rewrite lookup_insert_eq. simpl. lia.
  - rewrite lookup_insert_ne by done. lia.
Qed.

Lemma steps_nonce_mono s s' pk :
  Steps s s' -> get_nonce s pk <= get_nonce s' pk.
Proof.
  induction 1 as [|s c s1 s2 Hs _ IH]; [lia|].
  pose proof (step_nonce_mono s c s1 pk Hs). lia.
Qed.

Lemma step_nonce_stored s c s' :
  Step s c s' -> get_nonce s' (call_public_key c) = call_nonce c.
Proof.
  intros Hs. apply step_chip_nonce in Hs as [_ Heq].
  unfold get_nonce. rewrite Heq, lookup_insert_eq. reflexivity.
Qed.

(** ** C1: stale nonces are refused, before any signature recovery *)

(** Claim C1.  For every state and public key, a mint, claim or transfer
    call whose nonce is at most the nonce stored for its key aborts with
    [InvalidSignature] and leaves the state unchanged; in particular a
    byte-identical resubmission of an accepted call, in any later state,
    is refused.  The statement holds for every [secp256k1_recover] (and
    every hash), also one accepting every signature: the nonce check
    decides the outcome before recovery is consulted. *)
Theorem stale_nonce_rejected :
  (forall s c, call_nonce c <= get_nonce s (call_public_key c) ->
     Run c s = (s, Err (Contract InvalidSignature))) /\
  (forall s c s' s'', Step s c s' -> Steps s' s'' ->
     Run c s'' = (s'', Err (Contract InvalidSignature))).
Proof.
  assert (Hstale : forall s c, call_nonce c <= get_nonce s (call_public_key c) ->
            Run c s = (s, Err (Contract InvalidSignature))).
  { intros s c Hle. unfold run. rewrite exec_stale by done. reflexivity. }
  split; [exact Hstale|].
  intros s c s' s'' Hs Hss. apply Hstale.
  pose proof (step_nonce_stored s c s' Hs).
  pose proof (steps_nonce_mono s' s'' (call_public_key c) Hss). lia.
Qed.

(** ** C2: the nonce write and the transaction *)

(** Claim C2 (as amended).  [verify_chip_signature] itself writes the
    presented nonce: whenever it succeeds, its final state is the initial
    one with the key's nonce entry set to the presented nonce, and nothing
    else changed.  The host commits that write only with the whole call: a
    successful mint, claim or transfer commits exactly one change to the
    nonce record, its key now mapping to exactly its nonce; a call that
    aborts, for any reason and at any point (also after
    [verify_chip_signature] has written the nonce), leaves the whole state
    as it was. *)
Theorem nonce_committed_only_on_success :
  (forall s s' u message signature recovery_id public_key nonce,
     Verify message signature recovery_id public_key nonce s = Ok (s', u) ->
     s' = set_chip_nonce public_key nonce s /\ get_nonce s' public_key = nonce) /\
  (forall s c,
     match Run c s with
     | (s', Ok _) =>
         chip_nonce s' = <[call_public_key c := call_nonce c]> (chip_nonce s) /\
         get_nonce s' (call_public_key c) = call_nonce c
     | (s', Err _) => s' = s
     end).
Proof.
  split.
  - intros s s' u message signature recovery_id public_key nonce Hv.
    apply verify_ok in Hv as (_ & _ & ->). split; [reflexivity|].
    unfold get_nonce. simpl. rewrite lookup_insert_eq. reflexivity.
  - intros s c.
    unfold run. destruct (exec _ _ _ c s) as [[s' v]|e] eqn:Hx; [|reflexivity].
    assert (Hs : Step s c s') by (exists v; exact Hx).
    split; [apply step_chip_nonce, Hs | apply (step_nonce_stored s c s' Hs)].
Qed.

(** ** Arithmetic on in-range values *)

Lemma add_w_small w a b :
  0 <= a -> 0 <= b -> a + b < 2 ^ w -> add_w overflow_checks w a b = Ok (a + b).
Proof.
  intros. unfold add_w. destruct overflow_checks.
  - destruct (Z.ltb_spec (a + b) (2 ^ w)); [reflexivity | lia].
  - rewrite Z.mod_small by lia. reflexivity.
Qed.

Lemma sub_w_small w a b :
  0 <= b <= a -> a < 2 ^ w -> sub_w overflow_checks w a b = Ok (a - b).
Proof.
  intros. unfold sub_w. destruct overflow_checks.
  - destruct (Z.ltb_spec (a - b) 0); [lia | reflexivity].
  - rewrite Z.mod_small by lia. reflexivity.
Qed.

Lemma balance_set_balance s a v b :
  balance (set_balance a v s) b = if bool_decide (b = a) then v else balance s b.
Proof.
  unfold balance, set_balance; simpl. case_bool_decide as Hb.
  - subst. by rewrite lookup_insert_eq.
  - by rewrite lookup_insert_ne.
Qed.

(** Writes that leave the balances alone. *)
Lemma balance_set_owner s i a b : balance (set_owner i a s) b = balance s b.
Proof. reflexivity. Qed.
Lemma balance_set_chip_nonce s pk n b : balance (set_chip_nonce pk n s) b = balance s b.
Proof. reflexivity. Qed.

(** ** C3: transfer *)

(** Claim C3 (as amended).  In a state where the verification of the
    envelope succeeds, [transfer from to token_id] fails with
    [NonExistentToken] if no key is bound to [token_id]; with
    [InvalidSignature] if the bound key differs from the presented one;
    with [NonExistentToken] if the token has no owner yet; with
    [IncorrectOwner] if the owner is not [from]; otherwise, when [from]'s
    balance is at least 1 and [to]'s balance is below [2^32 - 1], it
    succeeds, the owner becomes [to], [from]'s balance is decremented and
    then [to]'s incremented (each address [a] ends with its balance minus
    [a = from] plus [a = to]). *)
Theorem transfer_outcome s s1 from to token_id message signature recovery_id
    public_key nonce :
  Verify message signature recovery_id public_key nonce s = Ok (s1, tt) ->
  let r := transfer sha256 secp256k1_recover overflow_checks from to token_id
             message signature recovery_id public_key nonce s in
  (public_key_of s !! token_id = None -> r = Err (Contract NonExistentToken)) /\
  (forall k, public_key_of s !! token_id = Some k -> k <> public_key ->
     r = Err (Contract InvalidSignature)) /\
  (public_key_of s !! token_id = Some public_key -> owner s !! token_id = None ->
     r = Err (Contract NonExistentToken)) /\
  (forall o, public_key_of s !! token_id = Some public_key ->
     owner s !! token_id = Some o -> o <> from -> r = Err (Contract IncorrectOwner)) /\
  (public_key_of s !! token_id = Some public_key -> owner s !! token_id = Some from ->
     1 <= balance s from < 2 ^ 32 -> 0 <= balance s to < 2 ^ 32 - 1 ->
     exists s', r = Ok (s', tt) /\ owner s' !! token_id = Some to /\
       forall a, balance s' a = balance s a - (if bool_decide (a = from) then 1 else 0)
                               + (if bool_decide (a = to) then 1 else 0)).
Proof.
  intros Hv r. pose proof Hv as Hv'. apply verify_ok in Hv' as (_ & _ & ->).
  subst r. unfold transfer, owner_of. munfold. rewrite Hv. simpl.
  split; [intros Hk; rewrite Hk; reflexivity|].
  split; [intros k Hk Hne; rewrite Hk; simpl;
          destruct (Z.eqb_spec k public_key); [done | reflexivity]|].
  split; [intros Hk Ho; rewrite Hk; simpl; rewrite Z.eqb_refl; simpl; rewrite Ho; reflexivity|].
  split; [intros o Hk Ho Hne; rewrite Hk; simpl; rewrite Z.eqb_refl; simpl; rewrite Ho; simpl;
          destruct (Z.eqb_spec o from); [done | reflexivity]|].
  intros Hk Ho Hf Ht. rewrite Hk; simpl; rewrite Z.eqb_refl; simpl; rewrite Ho; simpl; rewrite Z.eqb_refl. simpl.
  rewrite balance_set_owner, balance_set_chip_nonce, sub_w_small by lia.
  set (s2 := set_owner token_id to (set_chip_nonce public_key nonce s)).
  assert (Hb2 : balance (set_balance from (balance s from - 1) s2) to
                = balance s to - (if bool_decide (to = from) then 1 else 0)).
  { subst s2. rewrite balance_set_balance.
    case_bool_decide; subst; rewrite ?balance_set_owner, ?balance_set_chip_nonce; lia. }
  rewrite Hb2, add_w_small by (case_bool_decide; subst; lia).
  eexists; split; [reflexivity|]. split.
  - simpl. by rewrite lookup_insert_eq.
  - intros a. rewrite !balance_set_balance. subst s2.
    rewrite balance_set_owner, balance_set_chip_nonce.
    repeat case_bool_decide; subst; try done; lia.
Qed.

(** ** C7: claim *)

(** Owner entries are never removed. *)
Lemma step_owner_persists s c s' i :
  Step s c s' -> is_Some (owner s !! i) -> is_Some (owner s' !! i).
Proof.
  intros [v Hx] Hi. destruct c; simpl in *; unfold exec in Hx; munfold.
  - destruct (mint _ _ _ _ _ _ _ _ _) as [[? ?]|] eqn:Hm; [|done]. simplify_eq.
    apply mint_ok in Hm as (_ & _ & _ & _ & _ & ? & _ & ->). exact Hi.
  - destruct (claim _ _ _ _ _ _ _ _ _ _) as [[? ?]|] eqn:Hm; [|done]. simplify_eq.
    apply claim_ok in Hm as (_ & _ & _ & _ & ? & _ & ->). simpl.
    destruct (decide (i = z)) as [->|?];
      [rewrite lookup_insert_eq | rewrite lookup_insert_ne]; eauto.
  - destruct (transfer _ _ _ _ _ _ _ _ _ _ _ _) as [[? ?]|] eqn:Hm; [|done].
    simplify_eq.
    apply transfer_ok in Hm as (_ & _ & _ & _ & ? & ? & _ & _ & ->). simpl.
    destruct (decide (i = token_id)) as [->|?];
      [rewrite lookup_insert_eq | rewrite lookup_insert_ne]; eauto.
Qed.

Lemma steps_owner_persists s s' i :
  Steps s s' -> is_Some (owner s !! i) -> is_Some (owner s' !! i).
Proof.
  induction 1 as [|s c s1 s2 Hs _ IH]; [done|].
  intros Hi. apply IH. exact (step_owner_persists s c s1 i Hs Hi).
Qed.

(** Claim C7 (as amended).  In a state where the verification of the
    envelope succeeds, [claim claimant] fails with [NonExistentToken] if
    the key resolves to no token; with [TokenAlreadyMinted] if the token
    has an owner, whoever the claimant; otherwise, when the claimant's
    balance is below [2^32 - 1], it succeeds, returns the token id, makes
    the claimant its owner, leaves every other token's owner alone and
    adds exactly 1 to the claimant's balance alone; when the claimant's
    balance is [2^32 - 1], the [u32] increment panics in a build with
    overflow checks and wraps the balance to 0 in one without.  A
    successful claim never changes an owner already set, and owners are
    never removed by later calls, so a claimed token is never claimed
    again. *)
Theorem claim_outcome s s1 claimant message signature recovery_id public_key nonce :
  Verify message signature recovery_id public_key nonce s = Ok (s1, tt) ->
  let r := claim sha256 secp256k1_recover overflow_checks claimant message
             signature recovery_id public_key nonce s in
  (token_id_by_public_key s !! public_key = None -> r = Err (Contract NonExistentToken)) /\
  (forall id o, token_id_by_public_key s !! public_key = Some id ->
     owner s !! id = Some o -> r = Err (Contract TokenAlreadyMinted)) /\
  (forall id, token_id_by_public_key s !! public_key = Some id -> owner s !! id = None ->
     0 <= balance s claimant < 2 ^ 32 - 1 ->
     exists s', r = Ok (s', id) /\ owner s' !! id = Some claimant /\
       (forall j, j <> id -> owner s' !! j = owner s !! j) /\
       balance s' claimant = balance s claimant + 1 /\
       forall a, a <> claimant -> balance s' a = balance s a) /\
  (forall id, token_id_by_public_key s !! public_key = Some id -> owner s !! id = None ->
     balance s claimant = 2 ^ 32 - 1 ->
     (overflow_checks = true -> r = Err ArithPanic) /\
     (overflow_checks = false -> exists s', r = Ok (s', id) /\
        owner s' !! id = Some claimant /\ balance s' claimant = 0)) /\
  (forall s' s'' claimant' message' signature' recovery_id' public_key' nonce' j o,
     Step s' (CClaim claimant' message' signature' recovery_id' public_key' nonce') s'' ->
     owner s' !! j = Some o -> owner s'' !! j = Some o) /\
  (forall s' s'' id, Steps s' s'' -> is_Some (owner s' !! id) ->
     is_Some (owner s'' !! id)).
Proof.
  intros Hv r. pose proof Hv as Hv'. apply verify_ok in Hv' as (_ & _ & ->).
  subst r. unfold claim. munfold. rewrite Hv. simpl.
  split; [intros Hk; rewrite Hk; reflexivity|].
  split; [intros id o Hk Ho; rewrite Hk; simpl; rewrite Ho; reflexivity|].
  split; [|split; [|split; [|exact steps_owner_persists]]].
  - intros id Hk Ho Hb. rewrite Hk; simpl; rewrite Ho; simpl.
    rewrite balance_set_owner, balance_set_chip_nonce, add_w_small by lia.
    eexists; split; [reflexivity|]. split; [|split; [|split]].
    + simpl. by rewrite lookup_insert_eq.
    + intros j Hj. simpl. by rewrite lookup_insert_ne.
    + rewrite balance_set_balance, bool_decide_true by done. reflexivity.
    + intros a Ha. rewrite balance_set_balance, bool_decide_false by done. reflexivity.
  - intros id Hk Ho Hb. rewrite Hk; simpl; rewrite Ho; simpl.
    rewrite balance_set_owner, balance_set_chip_nonce, Hb. unfold add_w.
    split.
    + intros ->. reflexivity.
    + intros ->. eexists; split; [reflexivity|]. split.
      * simpl. by rewrite lookup_insert_eq.
      * rewrite balance_set_balance, bool_decide_true by done. reflexivity.
  - intros s' s'' claimant' message' signature' recovery_id' public_key' nonce' j o
      [v Hx] Hj.
    simpl in Hx. unfold exec in Hx. munfold.
    destruct (claim _ _ _ _ _ _ _ _ _ _) as [[? ?]|] eqn:Hm; [|done]. simplify_eq.
    apply claim_ok in Hm as (_ & _ & _ & Hnone & ? & _ & ->). simpl.
    rewrite lookup_insert_ne; [exact Hj|]. intros ->. congruence.
Qed.

(** ** C10: self-transfer *)

(** Claim C10.  A successful transfer from an address to itself leaves the
    token's owner and every balance as they were (the stored balance of
    the address being a [u32]). *)
Theorem self_transfer_noop s s' u from token_id message signature recovery_id
    public_key nonce :
  0 <= balance s from < 2 ^ 32 ->
  transfer sha256 secp256k1_recover overflow_checks from from token_id message
    signature recovery_id public_key nonce s = Ok (s', u) ->
  owner s' !! token_id = owner s !! token_id /\
  forall a, balance s' a = balance s a.
Proof.
  intros Hr Hx.
  apply transfer_ok in Hx as (_ & _ & _ & Ho & fb & tb & Hfb & Htb & ->).
  rewrite balance_set_balance, bool_decide_true in Htb by done.
  assert (Htb' : tb = balance s from).
  { unfold sub_w, add_w in *. destruct overflow_checks.
    - destruct (Z.ltb_spec (balance s from - 1) 0); simplify_eq.
      destruct (Z.ltb_spec (balance s from - 1 + 1) (2 ^ 32)); simplify_eq. lia.
    - simplify_eq. rewrite Z.add_mod_idemp_l by lia.
      rewrite Z.sub_add, Z.mod_small by lia. reflexivity. }
  subst tb. split.
  - simpl. by rewrite lookup_insert_eq.
  - intros a. rewrite !balance_set_balance.
    case_bool_decide; subst; reflexivity.
Qed.

(** ** Token ids and the key index *)

Lemma ids_inv_init max : 0 <= max < 2 ^ 64 -> ids_inv (construct max).
Proof.
  intros Hm. exists 0, max. simpl. repeat split; try done; try lia.
  all: destruct H as [? Hi]; by rewrite lookup_empty in Hi.
Qed.

Lemma ids_inv_mint s s' id message signature recovery_id public_key nonce :
  ids_inv s ->
  mint sha256 secp256k1_recover overflow_checks message signature recovery_id
    public_key nonce s = Ok (s', id) ->
  next_token_id s' = Some (id + 1) /\ public_key_of s' !! id = Some public_key /\
  ids_inv s'.
Proof.
  intros (n & m & Hn & Hm & Hnm & Hm64 & Hdense & Hidx) Hx.
  apply mint_ok in Hx as (_ & _ & Hnone & Hid & (m' & Hm' & Hlt) & next & Hnext & ->).
  rewrite Hn in Hid. rewrite Hm in Hm'. injection Hid as Hid. injection Hm' as Hm'.
  subst id m'. rewrite add_w_small in Hnext by lia. injection Hnext as <-.
  assert (Hfresh : public_key_of s !! n = None).
  { apply eq_None_not_Some. rewrite Hdense. lia. }
  split; [reflexivity|]. split; [simpl; by rewrite lookup_insert_eq|].
  exists (n + 1), m. simpl.
  split; [done|]. split; [done|]. split; [lia|]. split; [lia|]. split.
  - intros i. destruct (decide (i = n)) as [->|Hi].
    + rewrite lookup_insert_eq. split; [lia | eauto].
    + rewrite lookup_insert_ne by done. rewrite Hdense. lia.
  - intros k i. destruct (decide (k = public_key)) as [->|Hk].
    + rewrite lookup_insert_eq. split; [intros [= <-]; by rewrite lookup_insert_eq|].
      destruct (decide (i = n)) as [->|Hi]; [done|].
      rewrite lookup_insert_ne by done. intros Hpk.
      apply Hidx in Hpk. congruence.
    + rewrite lookup_insert_ne by done.
      destruct (decide (i = n)) as [->|Hi].
      * rewrite lookup_insert_eq. split; [|congruence].
        intros Hki. apply Hidx in Hki. congruence.
      * rewrite lookup_insert_ne by done. apply Hidx.
Qed.

Lemma ids_inv_step s c s' : ids_inv s -> Step s c s' -> ids_inv s'.
Proof.
  intros Hinv [v Hx]. destruct c; simpl in *; unfold exec in Hx; munfold.
  - destruct (mint _ _ _ _ _ _ _ _ _) as [[? ?]|] eqn:Hm; [|done]. simplify_eq.
    eapply ids_inv_mint; eauto.
  - destruct (claim _ _ _ _ _ _ _ _ _ _) as [[? ?]|] eqn:Hm; [|done]. simplify_eq.
    apply claim_ok in Hm as (_ & _ & _ & _ & ? & _ & ->). exact Hinv.
  - destruct (transfer _ _ _ _ _ _ _ _ _ _ _ _) as [[? ?]|] eqn:Hm; [|done].
    simplify_eq.
    apply transfer_ok in Hm as (_ & _ & _ & _ & ? & ? & _ & _ & ->). exact Hinv.
Qed.

Lemma reachable_ids_inv s :
  reachable sha256 secp256k1_recover overflow_checks s -> ids_inv s.
Proof.
  induction 1 as [max Hm|s c s' _ IH Hs].
  - by apply ids_inv_init.
  - by eapply ids_inv_step.
Qed.

Lemma run_mint message signature recovery_id public_key nonce s :
  Run (CMint message signature recovery_id public_key nonce) s =
  match mint sha256 secp256k1_recover overflow_checks message signature
          recovery_id public_key nonce s with
  | Ok (s', id) => (s', Ok (Some id))
  | Err e => (s, Err e)
  end.
Proof.
  unfold run, exec. munfold.
  destruct (mint _ _ _ _ _ _ _ _ _); [destruct a|]; reflexivity.
Qed.

(** ** C5: dense token ids and the supply cap *)

(** Claim C5.  In every reachable state the ids bound to a key are exactly
    [0 .. next_token_id - 1]; a successful mint returns the counter before
    the call and leaves it incremented by 1, binding the returned id; once
    the counter has reached the cap, a mint whose verification succeeds and
    whose key is unbound fails with [TokenIDsAreDepleted] and the state
    (counter and bindings included) is unchanged. *)
Theorem token_ids_dense :
  (forall s, reachable sha256 secp256k1_recover overflow_checks s ->
     exists n, next_token_id s = Some n /\
       forall i, is_Some (public_key_of s !! i) <-> 0 <= i < n) /\
  (forall s s' v message signature recovery_id public_key nonce,
     reachable sha256 secp256k1_recover overflow_checks s ->
     Run (CMint message signature recovery_id public_key nonce) s = (s', Ok v) ->
     exists id, v = Some id /\ next_token_id s = Some id /\
       next_token_id s' = Some (id + 1) /\ public_key_of s' !! id = Some public_key) /\
  (forall s s1 n m message signature recovery_id public_key nonce,
     next_token_id s = Some n -> max_tokens s = Some m -> m <= n ->
     Verify message signature recovery_id public_key nonce s = Ok (s1, tt) ->
     token_id_by_public_key s !! public_key = None ->
     Run (CMint message signature recovery_id public_key nonce) s =
       (s, Err (Contract TokenIDsAreDepleted))).
Proof.
  split; [|split].
  - intros s Hr. destruct (reachable_ids_inv s Hr) as (n & m & Hn & _ & _ & _ & Hd & _).
    eauto.
  - intros s s' v message signature recovery_id public_key nonce Hr Hx.
    rewrite run_mint in Hx.
    destruct (mint _ _ _ _ _ _ _ _ _) as [[s2 id]|e] eqn:Hm; [|done].
    injection Hx as <- <-. exists id. split; [done|].
    pose proof (reachable_ids_inv s Hr) as Hinv.
    destruct (ids_inv_mint s s2 id _ _ _ _ _ Hinv Hm) as (Hn' & Hpk & _).
    apply mint_ok in Hm as (_ & _ & _ & Hid & _). auto.
  - intros s s1 n m message signature recovery_id public_key nonce Hn Hm Hle Hv Hnone.
    rewrite run_mint. pose proof Hv as Hv'. apply verify_ok in Hv' as (_ & _ & ->).
    unfold mint. munfold. rewrite Hv. simpl. rewrite Hnone. simpl.
    rewrite Hn, Hm. simpl. destruct (Z.leb_spec m n); [reflexivity | lia].
Qed.

(** ** C6: one token per chip key *)

(** Claim C6.  In every reachable state no two token ids are bound to the
    same key, and the reverse index [TokenIdByPublicKey] maps each bound
    key to its unique id; a mint whose verification succeeds (so with a
    fresh, larger nonce) for a key that already resolves to a token fails
    with [TokenAlreadyMinted] and changes nothing, whatever the supply
    counter: the duplicate check comes before the cap check. *)
Theorem public_key_binds_once :
  (forall s, reachable sha256 secp256k1_recover overflow_checks s ->
     (forall i j k, public_key_of s !! i = Some k -> public_key_of s !! j = Some k -> i = j) /\
     (forall k i, token_id_by_public_key s !! k = Some i <-> public_key_of s !! i = Some k)) /\
  (forall s s1 message signature recovery_id public_key nonce,
     Verify message signature recovery_id public_key nonce s = Ok (s1, tt) ->
     is_Some (token_id_by_public_key s !! public_key) ->
     Run (CMint message signature recovery_id public_key nonce) s =
       (s, Err (Contract TokenAlreadyMinted))).
Proof.
  split.
  - intros s Hr. destruct (reachable_ids_inv s Hr) as (n & m & _ & _ & _ & _ & _ & Hidx).
    split; [|exact Hidx].
    intros i j k Hi Hj. apply Hidx in Hi, Hj. congruence.
  - intros s s1 message signature recovery_id public_key nonce Hv Hsome.
    rewrite run_mint. pose proof Hv as Hv'. apply verify_ok in Hv' as (_ & _ & ->).
    unfold mint. munfold. rewrite Hv. simpl.
    rewrite bool_decide_true by exact Hsome. reflexivity.
Qed.

(** ** Sums and counts over the storage maps *)

Lemma map_sum_insert (m : gmap Z Z) k v :
  map_fold (fun _ v acc => v + acc) 0 (<[k:=v]> m) =
  map_fold (fun _ v acc => v + acc) 0 m - unwrap_or (m !! k) 0 + v.
Proof.
  set (f := fun (_ : Z) (v acc : Z) => v + acc).
  assert (Hcomm : forall (m' : gmap Z Z) j x, m' !! j = None ->
            map_fold f 0 (<[j:=x]> m') = x + map_fold f 0 m').
  { intros m' j x Hj. rewrite map_fold_insert_L; [reflexivity | | exact Hj].
    intros. subst f. simpl. lia. }
  assert (Hd : map_fold f 0 (<[k:=v]> m) = v + map_fold f 0 (delete k m)).
  { rewrite <- insert_delete_eq. apply Hcomm, lookup_delete_eq. }
  destruct (m !! k) as [x|] eqn:Hk; simpl.
  - assert (Hm : map_fold f 0 m = x + map_fold f 0 (delete k m)).
    { rewrite <- (insert_id m k x) at 1 by exact Hk. rewrite <- insert_delete_eq.
      apply Hcomm, lookup_delete_eq. }
    rewrite Hd, Hm. lia.
  - rewrite delete_id in Hd by exact Hk. rewrite Hd. lia.
Qed.

Lemma map_size_lookup_Some (m : gmap Z Z) j x :
  m !! j = Some x -> size m = S (size (delete j m)).
Proof.
  intros Hj. rewrite <- (insert_id m j x) at 1 by exact Hj.
  rewrite <- insert_delete_eq. apply map_size_insert_None, lookup_delete_eq.
Qed.

Lemma map_count_insert (m : gmap Z Z) i v a :
  Z.of_nat (size (filter (fun kv : Z * Z => kv.2 = a) (<[i:=v]> m))) =
  Z.of_nat (size (filter (fun kv : Z * Z => kv.2 = a) m))
  - (if bool_decide (m !! i = Some a) then 1 else 0)
  + (if bool_decide (v = a) then 1 else 0).
Proof.
  set (P := fun kv : Z * Z => kv.2 = a).
  pose proof map_size_lookup_Some as Hsz.
  rewrite map_filter_insert. case_decide as Hv; subst P; simpl in Hv.
  - rewrite (bool_decide_true (v = a)) by exact Hv. rewrite map_size_insert.
    destruct (filter _ m !! i) as [x|] eqn:E.
    + apply map_lookup_filter_Some in E as [E1 E2]. simpl in E2. subst.
      rewrite bool_decide_true by exact E1. unfold id. lia.
    + apply map_lookup_filter_None in E.
      rewrite bool_decide_false; [lia|].
      destruct E as [E | E]; [congruence|]. intros Hi. exact (E a Hi eq_refl).
  - rewrite (bool_decide_false (v = a)) by exact Hv. rewrite map_filter_delete.
    destruct (filter (fun kv : Z * Z => kv.2 = a) m !! i) as [x|] eqn:E.
    + pose proof (Hsz _ _ _ E) as Hs.
      apply map_lookup_filter_Some in E as [E1 E2]. simpl in E2. subst.
      rewrite bool_decide_true by exact E1. lia.
    + rewrite delete_id by exact E. apply map_lookup_filter_None in E.
      rewrite bool_decide_false; [lia|].
      destruct E as [E | E]; [congruence|]. intros Hi. exact (E a Hi eq_refl).
Qed.

Lemma balance_sum_set_balance s a v :
  balance_sum (set_balance a v s) = balance_sum s - balance s a + v.
Proof. unfold balance_sum, balance. simpl. apply map_sum_insert. Qed.

Lemma owned_count_set_owner s i o a :
  owned_count (set_owner i o s) a =
  owned_count s a - (if bool_decide (owner s !! i = Some a) then 1 else 0)
  + (if bool_decide (o = a) then 1 else 0).
Proof. unfold owned_count. simpl. apply map_count_insert. Qed.

(** ** C8: the decrement in [transfer] *)

(** An owner owns at least its token. *)
Lemma owned_count_pos s token_id a :
  owner s !! token_id = Some a -> 1 <= owned_count s a.
Proof.
  intros Ho. unfold owned_count.
  assert (Hf : filter (fun kv : Z * Z => kv.2 = a) (owner s) !! token_id = Some a)
    by (apply map_lookup_filter_Some; split; [exact Ho | reflexivity]).
  rewrite (map_size_lookup_Some _ _ _ Hf). lia.
Qed.

(** Claim C8 (as amended).  When each balance counts the owner's tokens,
    the owner of the transferred token has a balance of at least 1, so the
    [u32] decrement of [transfer] yields [balance - 1] in every build.
    [transfer] has no overflow guard of its own: it never fails with the
    contract error [MathOverflow]; when the invariant is broken (the owner
    has balance 0) the plain [u32] subtraction panics in a build with
    overflow checks, whoever [to] is; in a build without, the transfer
    succeeds whatever [to]'s balance, the decrement wraps [from]'s balance
    to [2^32 - 1], and for a self-transfer the increment then wraps it
    back to 0. *)
Theorem transfer_decrement_unguarded :
  (forall s token_id from,
     (forall a, balance s a = owned_count s a) -> owner s !! token_id = Some from ->
     balance s from < 2 ^ 32 ->
     sub_w overflow_checks 32 (balance s from) 1 = Ok (balance s from - 1)) /\
  (forall s from to token_id message signature recovery_id public_key nonce,
     transfer sha256 secp256k1_recover overflow_checks from to token_id message
       signature recovery_id public_key nonce s <> Err (Contract MathOverflow)) /\
  (forall s s1 from to token_id message signature recovery_id public_key nonce,
     Verify message signature recovery_id public_key nonce s = Ok (s1, tt) ->
     public_key_of s !! token_id = Some public_key -> owner s !! token_id = Some from ->
     balance s from = 0 ->
     let r := transfer sha256 secp256k1_recover overflow_checks from to token_id
                message signature recovery_id public_key nonce s in
     (overflow_checks = true -> r = Err ArithPanic) /\
     (overflow_checks = false ->
        exists s', r = Ok (s', tt) /\ owner s' !! token_id = Some to /\
          balance s' from = (if bool_decide (from = to) then 0 else 2 ^ 32 - 1))).
Proof.
  split; [|split].
  - intros s token_id from Hcount Ho Hlt.
    pose proof (owned_count_pos s token_id from Ho). rewrite <- Hcount in *.
    apply sub_w_small; lia.
  - intros. unfold transfer, verify_chip_signature, owner_of, add_w, sub_w.
    munfold. intros Heq. msplit.
  - intros s s1 from to token_id message signature recovery_id public_key nonce
      Hv Hk Ho Hz r.
    pose proof Hv as Hv'. apply verify_ok in Hv' as (_ & _ & ->).
    subst r. unfold transfer, owner_of. munfold. rewrite Hv. simpl.
    rewrite Hk; simpl; rewrite Z.eqb_refl; simpl; rewrite Ho; simpl;
      rewrite Z.eqb_refl; simpl.
    rewrite balance_set_owner, balance_set_chip_nonce, Hz.
    split.
    + intros ->. reflexivity.
    + intros Hf. unfold sub_w, add_w. rewrite Hf. simpl.
      eexists; split; [reflexivity|]. split.
      * simpl. by rewrite lookup_insert_eq.
      * rewrite balance_set_balance. case_bool_decide as Heq.
        -- subst to. rewrite balance_set_balance, bool_decide_true by reflexivity.
           reflexivity.
        -- rewrite balance_set_balance, bool_decide_true by reflexivity. reflexivity.
Qed.

(** ** C9: the signed payload *)

Lemma byte_of_Z_to_N z : Z.of_N (Byte.to_N (byte_of_Z z)) = z mod 256.
Proof.
  unfold byte_of_Z.
  pose proof (Byte.to_of_N_option_map (Z.to_N (z mod 256))) as Hm.
  assert (Hr : 0 <= z mod 256 < 256) by (apply Z.mod_pos_bound; lia).
  destruct (Byte.of_N (Z.to_N (z mod 256))) as [b|] eqn:Hb.
  - apply Byte.to_of_N in Hb. rewrite Hb. lia.
  - simpl in Hm. destruct (N.leb_spec (Z.to_N (z mod 256)) 255); [discriminate | lia].
Qed.

Lemma testbit_byte n k i :
  0 <= k -> 8 * k <= i < 8 * k + 8 ->
  Z.testbit n i = Z.testbit (Z.shiftr n (8 * k) mod 256) (i - 8 * k).
Proof.
  intros Hk Hi. change 256 with (2 ^ 8).
  rewrite Z.mod_pow2_bits_low, Z.shiftr_spec by lia. f_equal. lia.
Qed.

(** The 4-byte big-endian encoding determines a [u32]. *)
Lemma be_bytes4_inj n1 n2 :
  0 <= n1 < 2 ^ 32 -> 0 <= n2 < 2 ^ 32 -> be_bytes 4 n1 = be_bytes 4 n2 -> n1 = n2.
Proof.
  intros H1 H2 Heq. simpl in Heq.
  injection Heq as E3 E2 E1 E0.
  apply (f_equal (fun b => Z.of_N (Byte.to_N b))) in E3, E2, E1, E0.
  rewrite !byte_of_Z_to_N in E3, E2, E1, E0.
  change (8 * Z.of_nat 3) with 24 in E3. change (8 * Z.of_nat 2) with 16 in E2.
  change (8 * Z.of_nat 1) with 8 in E1. change (8 * Z.of_nat 0) with 0 in E0.
  rewrite !Z.shiftr_0_r in E0.
  apply Z.bits_inj'. intros i Hi.
  destruct (Z.lt_ge_cases i 8).
  { rewrite (testbit_byte n1 0 i), (testbit_byte n2 0 i) by lia.
    change (8 * 0) with 0. rewrite !Z.shiftr_0_r, E0. reflexivity. }
  destruct (Z.lt_ge_cases i 16).
  { rewrite (testbit_byte n1 1 i), (testbit_byte n2 1 i) by lia. change (8 * 1) with 8. now rewrite E1. }
  destruct (Z.lt_ge_cases i 24).
  { rewrite (testbit_byte n1 2 i), (testbit_byte n2 2 i) by lia. change (8 * 2) with 16. now rewrite E2. }
  destruct (Z.lt_ge_cases i 32).
  { rewrite (testbit_byte n1 3 i), (testbit_byte n2 3 i) by lia. change (8 * 3) with 24. now rewrite E3. }
  rewrite <- (Z.mod_small n1 (2 ^ 32)), <- (Z.mod_small n2 (2 ^ 32)) by lia.
  rewrite !Z.mod_pow2_bits_high by lia. reflexivity.
Qed.

(** Claim C9 (as amended).  The digest handed to public-key recovery is
    SHA-256 of the message followed by the XDR encoding of the nonce as an
    [ScVal::U32]: the discriminant bytes [00 00 00 03], then the 4-byte
    big-endian nonce.  This encoding is deterministic, 8 bytes wide for
    every nonce, and distinct for distinct [u32] nonces. *)
Theorem signed_payload_encoding :
  (forall s s1 message signature recovery_id public_key nonce,
     Verify message signature recovery_id public_key nonce s = Ok (s1, tt) ->
     secp256k1_recover
       (sha256 (message ++ [Byte.x00; Byte.x00; Byte.x00; Byte.x03] ++ nonce_be4 nonce))
       signature recovery_id = Some public_key) /\
  (forall message nonce,
     signed_payload message nonce =
     message ++ [Byte.x00; Byte.x00; Byte.x00; Byte.x03] ++ nonce_be4 nonce) /\
  (forall nonce, length (u32_to_xdr nonce) = 8%nat) /\
  (forall n1 n2, 0 <= n1 < 2 ^ 32 -> 0 <= n2 < 2 ^ 32 ->
     u32_to_xdr n1 = u32_to_xdr n2 -> n1 = n2).
Proof.
  split; [|split; [|split]].
  - intros s s1 message signature recovery_id public_key nonce Hv.
    apply verify_ok in Hv as (_ & Hrec & _). exact Hrec.
  - reflexivity.
  - reflexivity.
  - intros n1 n2 H1 H2 Heq. unfold u32_to_xdr in Heq.
    apply app_inv_head in Heq. exact (be_bytes4_inj n1 n2 H1 H2 Heq).
Qed.

End Proofs.

(** ** Builds with overflow checks *)

Section Checked.

Variable sha256 : list Byte.byte -> Z.
Variable secp256k1_recover : Z -> Z -> Z -> option Z.

Lemma add_w_checked w a b r : add_w true w a b = Ok r -> r = a + b.
Proof. unfold add_w. destruct (_ <? _); congruence. Qed.

Lemma sub_w_checked w a b r : sub_w true w a b = Ok r -> r = a - b /\ 0 <= a - b.
Proof.
  unfold sub_w. destruct (Z.ltb_spec (a - b) 0); intros; simplify_eq. lia.
Qed.

Lemma balance_sum_set_owner s i o : balance_sum (set_owner i o s) = balance_sum s.
Proof. reflexivity. Qed.
Lemma balance_sum_set_chip_nonce s pk n : balance_sum (set_chip_nonce pk n s) = balance_sum s.
Proof. reflexivity. Qed.

(** With overflow checks, a successful transfer keeps the sum of the
    balances, from any state. *)
Lemma transfer_balance_sum s s' from to token_id message signature recovery_id
    public_key nonce :
  step sha256 secp256k1_recover true s
    (CTransfer from to token_id message signature recovery_id public_key nonce) s' ->
  balance_sum s' = balance_sum s.
Proof.
  intros [v Hx]. simpl in Hx. unfold exec in Hx. munfold.
  destruct (transfer _ _ _ _ _ _ _ _ _ _ _ _) as [[? ?]|] eqn:Hm; [|done].
  simplify_eq.
  apply transfer_ok in Hm as (_ & _ & _ & _ & fb & tb & Hfb & Htb & ->).
  apply sub_w_checked in Hfb as [-> _]. apply add_w_checked in Htb as ->.
  rewrite !balance_sum_set_balance, balance_sum_set_owner, balance_sum_set_chip_nonce.
  rewrite !balance_set_balance, !balance_set_owner, !balance_set_chip_nonce.
  case_bool_decide; subst; lia.
Qed.


Lemma owned_tokens_set_owner s i o :
  owned_tokens (set_owner i o s) =
  owned_tokens s + (if bool_decide (owner s !! i = None) then 1 else 0).
Proof.
  unfold owned_tokens. simpl. rewrite map_size_insert.
  destruct (owner s !! i); simpl; lia.
Qed.

Lemma balance_inv_init max : balance_inv (construct max).
Proof. split; reflexivity. Qed.

Lemma balance_inv_step s c s' :
  balance_inv s -> step sha256 secp256k1_recover true s c s' -> balance_inv s'.
Proof.
  intros [Hcount Hsum] Hstep. pose proof Hstep as [v Hx].
  destruct c; simpl in *; unfold exec in Hx; munfold.
  - destruct (mint _ _ _ _ _ _ _ _ _) as [[? ?]|] eqn:Hm; [|done]. simplify_eq.
    apply mint_ok in Hm as (_ & _ & _ & _ & _ & ? & _ & ->). split; assumption.
  - destruct (claim _ _ _ _ _ _ _ _ _ _) as [[? ?]|] eqn:Hm; [|done]. simplify_eq.
    apply claim_ok in Hm as (_ & _ & _ & Hnone & b & Hb & ->).
    apply add_w_checked in Hb as ->. split.
    + intros a. rewrite balance_set_balance.
      change (owned_count (set_balance claimant (balance s claimant + 1)
                (set_owner z claimant (set_chip_nonce public_key nonce s))) a)
        with (owned_count (set_owner z claimant s) a).
      rewrite owned_count_set_owner, Hnone, <- Hcount.
      rewrite ?balance_set_owner, ?balance_set_chip_nonce.
      repeat case_bool_decide; simplify_eq; try done; lia.
    + rewrite balance_sum_set_balance, balance_sum_set_owner, balance_sum_set_chip_nonce.
      change (owned_tokens (set_balance claimant (balance s claimant + 1)
                (set_owner z claimant (set_chip_nonce public_key nonce s))))
        with (owned_tokens (set_owner z claimant s)).
      rewrite owned_tokens_set_owner, Hnone.
      rewrite balance_set_owner, balance_set_chip_nonce.
      case_bool_decide; [lia | done].
  - destruct (transfer _ _ _ _ _ _ _ _ _ _ _ _) as [[? ?]|] eqn:Hm; [|done].
    simplify_eq.
    rewrite <- (transfer_balance_sum _ _ _ _ _ _ _ _ _ _ Hstep) in Hsum.
    apply transfer_ok in Hm as (_ & _ & _ & Ho & fb & tb & Hfb & Htb & ->).
    apply sub_w_checked in Hfb as [-> _]. apply add_w_checked in Htb as ->.
    split.
    + intros a. rewrite !balance_set_balance.
      change (owned_count (set_balance to _ (set_balance from _
                (set_owner token_id to (set_chip_nonce public_key nonce s)))) a)
        with (owned_count (set_owner token_id to s) a).
      rewrite owned_count_set_owner, Ho, <- Hcount.
      rewrite !balance_set_owner, !balance_set_chip_nonce.
      repeat case_bool_decide; simplify_eq; try done; lia.
    + rewrite Hsum.
      change (owned_tokens (set_balance to _ (set_balance from _
                (set_owner token_id to (set_chip_nonce public_key nonce s)))))
        with (owned_tokens (set_owner token_id to s)).
      rewrite owned_tokens_set_owner, Ho. case_bool_decide; [done|]. lia.
Qed.

Lemma reachable_balance_inv s :
  reachable sha256 secp256k1_recover true s -> balance_inv s.
Proof.
  induction 1 as [max _|s c s' _ IH Hs].
  - apply balance_inv_init.
  - by eapply balance_inv_step.
Qed.

(** ** C4: balance conservation *)

(** Claim C4.  In a build with overflow checks, in every state reachable
    from the constructor by successful mint, claim and transfer calls,
    each address's balance is the number of tokens it owns and the stored
    balances add up to the number of tokens that have an owner; every
    successful transfer, from any state, keeps the sum of the balances. *)
Theorem balance_conservation :
  (forall s, reachable sha256 secp256k1_recover true s ->
     (forall a, balance s a = owned_count s a) /\ balance_sum s = owned_tokens s) /\
  (forall s s' from to token_id message signature recovery_id public_key nonce,
     step sha256 secp256k1_recover true s
       (CTransfer from to token_id message signature recovery_id public_key nonce) s' ->
     balance_sum s' = balance_sum s).
Proof.
  split.
  - exact reachable_balance_inv.
  - intros until nonce. apply transfer_balance_sum.
Qed.

End Checked.

(** ** Concrete executions *)

Lemma reachable_sc1 : reachable toy_sha256 toy_recover true (fst sc1).
Proof.
  apply (reach_step _ _ _ (construct 2) (CMint m1 K1 0 K1 1)).
  - apply reach_init. split; [lia|]. apply Z.ltb_lt. vm_compute. reflexivity.
  - exists (Some 0). vm_compute. reflexivity.
Qed.

Lemma reachable_sc2 : reachable toy_sha256 toy_recover true (fst sc2).
Proof.
  apply (reach_step _ _ _ (fst sc1) (CClaim addrA m1 K1 0 K1 2)).
  - exact reachable_sc1.
  - exists (Some 0). vm_compute. reflexivity.
Qed.

(** Witness of C1: re-sending the accepted mint of scenario 1 is refused. *)
Lemma stale_nonce_rejected_witness :
  run toy_sha256 toy_recover true (CMint m1 K1 0 K1 1) (fst sc1)
  = (fst sc1, Err (Contract InvalidSignature)).
Proof.
  apply (proj1 (stale_nonce_rejected toy_sha256 toy_recover true)).
  apply Z.leb_le. vm_compute. reflexivity.
Defined.

(** Counterexample to C2: [verify_chip_signature] alone already returns
    a state whose nonce for the key has advanced. *)
Lemma verify_writes_nonce :
  verify_chip_signature toy_sha256 toy_recover m1 K1 0 K1 1 (construct 2)
    = Ok (set_chip_nonce K1 1 (construct 2), tt) /\
  get_nonce (construct 2) K1 = 0 /\
  get_nonce (set_chip_nonce K1 1 (construct 2)) K1 = 1.
Proof. vm_compute. repeat split. Qed.

(** Counterexample to C3: token 0 is minted for [K1] but unclaimed; the
    envelope verifies, [from] is not an owner, yet the error is
    [NonExistentToken], not [IncorrectOwner]. *)
Lemma transfer_unclaimed_nonexistent :
  verify_chip_signature toy_sha256 toy_recover m1 K1 0 K1 2 (fst sc1)
    = Ok (set_chip_nonce K1 2 (fst sc1), tt) /\
  public_key_of (fst sc1) !! 0 = Some K1 /\
  owner (fst sc1) !! 0 = None /\
  transfer toy_sha256 toy_recover true addrA addrB 0 m1 K1 0 K1 2 (fst sc1)
    = Err (Contract NonExistentToken).
Proof. vm_compute. repeat split. Qed.

(** Witness of the amended C3: scenario 4. *)
Lemma transfer_outcome_witness :
  exists s', transfer toy_sha256 toy_recover true addrA addrB 0 m1 K1 0 K1 4 (fst sc2)
               = Ok (s', tt) /\ owner s' !! 0 = Some addrB /\
    forall a, balance s' a = balance (fst sc2) a - (if bool_decide (a = addrA) then 1 else 0)
                             + (if bool_decide (a = addrB) then 1 else 0).
Proof.
  refine (proj2 (proj2 (proj2 (proj2 (transfer_outcome toy_sha256 toy_recover true
            (fst sc2) (set_chip_nonce K1 4 (fst sc2)) addrA addrB 0 m1 K1 0 K1 4 _))))
            _ _ _ _).
  - vm_compute. reflexivity.
  - vm_compute. reflexivity.
  - vm_compute. reflexivity.
  - assert (Hb : balance (fst sc2) addrA = 1) by (vm_compute; reflexivity). rewrite Hb. lia.
  - assert (Hb : balance (fst sc2) addrB = 0) by (vm_compute; reflexivity). rewrite Hb. lia.
Defined.

(** Witness of C4: the state after scenario 2 satisfies the invariant. *)
Lemma balance_conservation_witness :
  (forall a, balance (fst sc2) a = owned_count (fst sc2) a) /\
  balance_sum (fst sc2) = owned_tokens (fst sc2).
Proof.
  apply (proj1 (balance_conservation toy_sha256 toy_recover)). exact reachable_sc2.
Defined.

(** Witness of C5: the first mint returns 0 and moves the counter to 1;
    at the cap of scenario 6 a fresh key is refused. *)
Lemma token_ids_dense_witness :
  (exists id, Some 0 = Some id /\ next_token_id (construct 2) = Some id /\
     next_token_id (fst sc1) = Some (id + 1) /\ public_key_of (fst sc1) !! id = Some K1) /\
  toy_run (CMint m1 9 0 9 1) sc6 = (sc6, Err (Contract TokenIDsAreDepleted)).
Proof.
  split.
  - apply (proj1 (proj2 (token_ids_dense toy_sha256 toy_recover true))
             (construct 2) (fst sc1) (Some 0) m1 K1 0 K1 1).
    + apply reach_init. split; [lia|]. apply Z.ltb_lt. vm_compute. reflexivity.
    + vm_compute. reflexivity.
  - apply (proj2 (proj2 (token_ids_dense toy_sha256 toy_recover true))
             sc6 (set_chip_nonce 9 1 sc6) 2 2).
    + vm_compute. reflexivity.
    + vm_compute. reflexivity.
    + lia.
    + vm_compute. reflexivity.
    + vm_compute. reflexivity.
Defined.

(** Witness of C6: a second mint for [K1] with a larger nonce. *)
Lemma public_key_binds_once_witness :
  toy_run (CMint m1 K1 0 K1 2) (fst sc1) = (fst sc1, Err (Contract TokenAlreadyMinted)) /\
  (forall i j k, public_key_of (fst sc1) !! i = Some k ->
     public_key_of (fst sc1) !! j = Some k -> i = j).
Proof.
  split.
  - apply (proj2 (public_key_binds_once toy_sha256 toy_recover true)
             (fst sc1) (set_chip_nonce K1 2 (fst sc1))).
    + vm_compute. reflexivity.
    + exists 0. vm_compute. reflexivity.
  - exact (proj1 (proj1 (public_key_binds_once toy_sha256 toy_recover true)
                          (fst sc1) reachable_sc1)).
Defined.

(** Counterexample to C7: the claimant's stored balance is the [u32]
    maximum; the envelope verifies and the token is unclaimed, but the
    increment overflows: an abort with overflow checks, a wrap to 0
    without. *)
Lemma claim_balance_overflow :
  verify_chip_signature toy_sha256 toy_recover m1 K1 0 K1 2 s_big
    = Ok (set_chip_nonce K1 2 s_big, tt) /\
  token_id_by_public_key s_big !! K1 = Some 0 /\ owner s_big !! 0 = None /\
  snd (run toy_sha256 toy_recover true (CClaim addrA m1 K1 0 K1 2) s_big) = Err ArithPanic /\
  snd (run toy_sha256 toy_recover false (CClaim addrA m1 K1 0 K1 2) s_big) = Ok (Some 0) /\
  balance (fst (run toy_sha256 toy_recover false (CClaim addrA m1 K1 0 K1 2) s_big)) addrA = 0.
Proof. vm_compute. repeat split. Qed.

(** Witness of the amended C7: scenario 2. *)
Lemma claim_outcome_witness :
  (exists s', claim toy_sha256 toy_recover true addrA m1 K1 0 K1 2 (fst sc1) = Ok (s', 0) /\
    owner s' !! 0 = Some addrA /\
    (forall j, j <> 0 -> owner s' !! j = owner (fst sc1) !! j) /\
    balance s' addrA = balance (fst sc1) addrA + 1 /\
    forall a, a <> addrA -> balance s' a = balance (fst sc1) a) /\
  claim toy_sha256 toy_recover true addrA m1 K1 0 K1 2 s_big = Err ArithPanic.
Proof.
  split.
  - refine (proj1 (proj2 (proj2 (claim_outcome toy_sha256 toy_recover true
              (fst sc1) (set_chip_nonce K1 2 (fst sc1)) addrA m1 K1 0 K1 2 _))) 0 _ _ _).
    + vm_compute. reflexivity.
    + vm_compute. reflexivity.
    + vm_compute. reflexivity.
    + assert (Hb : balance (fst sc1) addrA = 0) by (vm_compute; reflexivity).
      rewrite Hb. lia.
  - refine (proj1 (proj1 (proj2 (proj2 (proj2 (claim_outcome toy_sha256 toy_recover true
              s_big (set_chip_nonce K1 2 s_big) addrA m1 K1 0 K1 2 _)))) 0 _ _ _) _).
    + vm_compute. reflexivity.
    + vm_compute. reflexivity.
    + vm_compute. reflexivity.
    + vm_compute. reflexivity.
    + reflexivity.
Defined.

(** Counterexample to C8: A owns token 0 with a stored balance of 0; the
    decrement panics with overflow checks and wraps without; in neither
    build does the call fail with [MathOverflow]. *)
Lemma transfer_balance_underflow :
  snd (run toy_sha256 toy_recover true (CTransfer addrA addrB 0 m1 K1 0 K1 3) s_bad)
    = Err ArithPanic /\
  snd (run toy_sha256 toy_recover false (CTransfer addrA addrB 0 m1 K1 0 K1 3) s_bad)
    = Ok None /\
  balance (fst (run toy_sha256 toy_recover false (CTransfer addrA addrB 0 m1 K1 0 K1 3) s_bad))
    addrA = 4294967295.
Proof. vm_compute. repeat split. Qed.

(** Witness of the amended C8: the broken state [s_bad]. *)
Lemma transfer_decrement_unguarded_witness :
  transfer toy_sha256 toy_recover true addrA addrA 0 m1 K1 0 K1 3 s_bad = Err ArithPanic /\
  exists s', transfer toy_sha256 toy_recover false addrA addrB 0 m1 K1 0 K1 3 s_bad
               = Ok (s', tt) /\ owner s' !! 0 = Some addrB /\
             balance s' addrA = (if bool_decide (addrA = addrB) then 0 else 2 ^ 32 - 1).
Proof.
  split.
  - refine (proj1 (proj2 (proj2 (transfer_decrement_unguarded toy_sha256 toy_recover true))
              s_bad (set_chip_nonce K1 3 s_bad) addrA addrA 0 m1 K1 0 K1 3 _ _ _ _) _).
    + vm_compute. reflexivity.
    + vm_compute. reflexivity.
    + vm_compute. reflexivity.
    + vm_compute. reflexivity.
    + reflexivity.
  - refine (proj2 (proj2 (proj2 (transfer_decrement_unguarded toy_sha256 toy_recover false))
              s_bad (set_chip_nonce K1 3 s_bad) addrA addrB 0 m1 K1 0 K1 3 _ _ _ _) _).
    + vm_compute. reflexivity.
    + vm_compute. reflexivity.
    + vm_compute. reflexivity.
    + vm_compute. reflexivity.
    + reflexivity.
Defined.

(** Counterexample to C9: the hashed bytes are not the message followed
    by the 4-byte big-endian nonce. *)
Lemma payload_not_be4 :
  signed_payload m1 1 = m1 ++ [Byte.x00; Byte.x00; Byte.x00; Byte.x03] ++ nonce_be4 1 /\
  signed_payload m1 1 <> m1 ++ nonce_be4 1.
Proof.
  split; [reflexivity|].
  intros H. apply (f_equal (@length Byte.byte)) in H. vm_compute in H. discriminate H.
Qed.

(** Witness of the amended C9: the digest recovered in scenario 1. *)
Lemma signed_payload_encoding_witness :
  toy_recover (toy_sha256 (m1 ++ [Byte.x00; Byte.x00; Byte.x00; Byte.x03] ++ nonce_be4 1)) K1 0
    = Some K1.
Proof.
  apply (proj1 (signed_payload_encoding toy_sha256 toy_recover)
           (construct 2) (set_chip_nonce K1 1 (construct 2))).
  vm_compute. reflexivity.
Defined.

(** Witness of C10: A sends token 0 to itself after scenario 2. *)
Lemma self_transfer_noop_witness :
  owner (fst (toy_run (CTransfer addrA addrA 0 m1 K1 0 K1 3) (fst sc2))) !! 0
    = owner (fst sc2) !! 0 /\
  forall a, balance (fst (toy_run (CTransfer addrA addrA 0 m1 K1 0 K1 3) (fst sc2))) a
            = balance (fst sc2) a.
Proof.
  apply (self_transfer_noop toy_sha256 toy_recover true (fst sc2) _ tt addrA 0 m1 K1 0 K1 3).
  - assert (Hb : balance (fst sc2) addrA = 1) by (vm_compute; reflexivity). rewrite Hb. lia.
  - vm_compute. reflexivity.
Defined.

(** ** Further properties of the contract *)

Section Extras.

Variable sha256 : list Byte.byte -> Z.
Variable secp256k1_recover : Z -> Z -> Z -> option Z.
Variable overflow_checks : bool.

Local Abbreviation Verify := (verify_chip_signature sha256 secp256k1_recover).
Local Abbreviation Run := (run sha256 secp256k1_recover overflow_checks).
Local Abbreviation Step := (step sha256 secp256k1_recover overflow_checks).
Local Abbreviation Steps := (steps sha256 secp256k1_recover overflow_checks).
Local Abbreviation Reachable := (reachable sha256 secp256k1_recover overflow_checks).

(** What a successful call ran. *)
Lemma step_cases s c s' :
  Step s c s' ->
  match c with
  | CMint m sg r pk n => exists id,
      mint sha256 secp256k1_recover overflow_checks m sg r pk n s = Ok (s', id)
  | CClaim a m sg r pk n => exists id,
      claim sha256 secp256k1_recover overflow_checks a m sg r pk n s = Ok (s', id)
  | CTransfer f t i m sg r pk n =>
      transfer sha256 secp256k1_recover overflow_checks f t i m sg r pk n s = Ok (s', tt)
  end.
Proof.
  intros [v Hx]. destruct c; simpl in *; unfold exec in Hx; munfold.
  - destruct (mint _ _ _ _ _ _ _ _ _) as [[? ?]|] eqn:Hm; [|done]. simplify_eq. eauto.
  - destruct (claim _ _ _ _ _ _ _ _ _ _) as [[? ?]|] eqn:Hm; [|done]. simplify_eq. eauto.
  - destruct (transfer _ _ _ _ _ _ _ _ _ _ _ _) as [[? []]|] eqn:Hm; [|done].
    simplify_eq. done.
Qed.

(** Every owned token has a bound key. *)
Lemma owner_inv_step s c s' :
  ids_inv s ->
  (forall i a, owner s !! i = Some a -> is_Some (public_key_of s !! i)) ->
  Step s c s' ->
  forall i a, owner s' !! i = Some a -> is_Some (public_key_of s' !! i).
Proof.
  intros Hids Hinv Hs. apply step_cases in Hs. destruct c.
  - destruct Hs as [id Hm]. apply mint_ok in Hm as (_ & _ & _ & _ & _ & ? & _ & ->).
    intros i a Hi. simpl in *. destruct (decide (i = id)) as [->|?].
    + rewrite lookup_insert_eq. eauto.
    + rewrite lookup_insert_ne by done. eauto.
  - destruct Hs as [id Hm]. apply claim_ok in Hm as (_ & _ & Hk & _ & ? & _ & ->).
    intros i a Hi. simpl in *. destruct (decide (i = id)) as [->|?].
    + destruct Hids as (? & ? & _ & _ & _ & _ & _ & Hidx). apply Hidx in Hk. eauto.
    + rewrite lookup_insert_ne in Hi by done. eauto.
  - apply transfer_ok in Hs as (_ & _ & Hk & _ & ? & ? & _ & _ & ->).
    intros i a Hi. simpl in *. destruct (decide (i = token_id)) as [->|?].
    + eauto.
    + rewrite lookup_insert_ne in Hi by done. eauto.
Qed.

Lemma reachable_owner_inv s :
  Reachable s -> forall i a, owner s !! i = Some a -> is_Some (public_key_of s !! i).
Proof.
  induction 1 as [max _|s c s' Hr IH Hs].
  - intros i a Hi. simpl in Hi. by rewrite lookup_empty in Hi.
  - eapply owner_inv_step; [eapply reachable_ids_inv; exact Hr | exact IH | exact Hs].
Qed.

(** A map whose keys are exactly [0 .. n - 1] has [n] entries. *)
Lemma size_dense (m : gmap Z Z) n :
  0 <= n -> (forall i, is_Some (m !! i) <-> 0 <= i < n) -> Z.of_nat (size m) = n.
Proof.
  intros Hn Hm. rewrite <- size_dom.
  assert (Hd : dom m = list_to_set (seqZ 0 n)).
  { apply set_eq. intros i. rewrite elem_of_dom, elem_of_list_to_set, elem_of_seqZ.
    rewrite Hm. lia. }
  rewrite Hd, size_list_to_set by apply NoDup_seqZ. rewrite length_seqZ. lia.
Qed.

(** Owned tokens are minted tokens. *)
Lemma reachable_owned_le s :
  Reachable s ->
  exists n m, next_token_id s = Some n /\ max_tokens s = Some m /\
    owned_tokens s <= n <= m /\
    forall i a, owner s !! i = Some a -> 0 <= i < n /\ is_Some (public_key_of s !! i).
Proof.
  intros Hr. pose proof (reachable_owner_inv s Hr) as Ho.
  destruct (reachable_ids_inv _ _ _ s Hr) as (n & m & Hn & Hm & Hnm & _ & Hd & _).
  exists n, m. split; [done|]. split; [done|]. split.
  - split; [|lia]. unfold owned_tokens.
    rewrite <- (size_dense (public_key_of s) n) by (lia || exact Hd).
    rewrite <- !size_dom. apply inj_le, subseteq_size.
    intros i. rewrite !elem_of_dom. intros [a Ha]. exact (Ho i a Ha).
  - intros i a Ha. pose proof (Ho i a Ha) as Hi. split; [apply Hd, Hi | exact Hi].
Qed.

(** Stored nonces are positive. *)
Lemma reachable_nonce_pos s :
  Reachable s -> forall k v, chip_nonce s !! k = Some v -> 0 < v.
Proof.
  induction 1 as [max _|s c s' Hr IH Hs].
  - intros k v Hk. simpl in Hk. by rewrite lookup_empty in Hk.
  - apply step_chip_nonce in Hs as [Hlt Heq]. intros k v Hk. rewrite Heq in Hk.
    destruct (decide (k = call_public_key c)) as [->|Hne].
    + rewrite lookup_insert_eq in Hk. injection Hk as <-.
      unfold get_nonce in Hlt.
      destruct (chip_nonce s !! call_public_key c) as [v0|] eqn:E; simpl in Hlt.
      * pose proof (IH _ _ E). lia.
      * lia.
    + rewrite lookup_insert_ne in Hk by congruence. eauto.
Qed.

Lemma get_nonce_nonneg s k : Reachable s -> 0 <= get_nonce s k.
Proof.
  intros Hr. unfold get_nonce.
  destruct (chip_nonce s !! k) as [v|] eqn:E; simpl; [|lia].
  pose proof (reachable_nonce_pos s Hr k v E). lia.
Qed.

Lemma length_be_bytes w z : length (be_bytes w z) = w.
Proof. induction w as [|w IH]; simpl; auto. Qed.

Lemma from_be_bytes_be_bytes w z :
  from_be_bytes (be_bytes w z) = z mod 2 ^ (8 * Z.of_nat w).
Proof.
  induction w as [|w IH]; simpl.
  - symmetry. apply Z.mod_1_r.
  - rewrite byte_of_Z_to_N, length_be_bytes, IH, Z.shiftr_div_pow2 by lia.
    rewrite Nat2Z.inj_succ.
    replace (8 * Z.succ (Z.of_nat w)) with (8 * Z.of_nat w + 8) by lia.
    rewrite Z.pow_add_r by lia.
    assert (Ha : 0 < 2 ^ (8 * Z.of_nat w)) by (apply Z.pow_pos_nonneg; lia).
    set (a := 2 ^ (8 * Z.of_nat w)) in *. change (2 ^ 8) with 256.
    rewrite (Z.mod_eq z (a * 256)), (Z.mod_eq (z / a) 256), (Z.mod_eq z a) by lia.
    rewrite <- Z.div_div by lia. ring.
Qed.

(** Extra property: a chip's nonce only grows.  A successful call
    strictly raises the nonce stored for its key ([get_nonce]), and along
    any sequence of successful calls no key's nonce ever decreases. *)
Theorem chip_nonce_monotone :
  (forall s c s', Step s c s' ->
     get_nonce s (call_public_key c) < get_nonce s' (call_public_key c)) /\
  (forall s s' pk, Steps s s' -> get_nonce s pk <= get_nonce s' pk).
Proof.
  split.
  - intros s c s' Hs. pose proof (step_nonce_stored _ _ _ s c s' Hs) as Heq.
    apply step_chip_nonce in Hs as [Hlt _]. lia.
  - intros s s' pk Hss. exact (steps_nonce_mono _ _ _ s s' pk Hss).
Qed.

(** Extra property: in every reachable state, a mint, claim or transfer
    presenting nonce 0 fails with [InvalidSignature] and changes nothing:
    the first nonce a chip may use is 1. *)
Theorem nonce_zero_rejected s c :
  Reachable s -> call_nonce c = 0 ->
  Run c s = (s, Err (Contract InvalidSignature)).
Proof.
  intros Hr H0. unfold run. rewrite exec_stale; [reflexivity|].
  rewrite H0. apply get_nonce_nonneg, Hr.
Qed.


(** Extra property: minting does not touch ownership.  In a reachable
    state a successful mint leaves every owner entry and every balance as
    it was, and the token it returns has no owner yet (so [owner_of] on
    it fails until it is claimed). *)
Theorem mint_leaves_ownership s s' id message signature recovery_id public_key nonce :
  reachable sha256 secp256k1_recover overflow_checks s ->
  run sha256 secp256k1_recover overflow_checks
    (CMint message signature recovery_id public_key nonce) s = (s', Ok (Some id)) ->
  owner s' = owner s /\ balances s' = balances s /\ owner s' !! id = None.
Proof.
  intros Hr Hx. rewrite run_mint in Hx.
  destruct (mint _ _ _ _ _ _ _ _ _) as [[s2 id2]|e] eqn:Hm; [|done].
  injection Hx as -> ->.
  destruct (reachable_ids_inv _ _ _ s Hr) as (n & m & Hn & _ & _ & _ & Hd & _).
  pose proof (reachable_owner_inv s Hr) as Ho.
  apply mint_ok in Hm as (_ & _ & _ & Hid & _ & ? & _ & ->). simpl.
  split; [done|]. split; [done|].
  rewrite Hn in Hid. injection Hid as ->.
  destruct (owner s !! id) as [a|] eqn:E; [|done].
  apply Ho in E. apply Hd in E. lia.
Qed.

(** Extra property: what a successful claim leaves alone.  It changes
    neither the token counter, the cap, nor the key bindings in either
    direction; it changes the owner of no token other than the one its
    key resolves to, and the balance of no address other than the
    claimant. *)
Theorem claim_frame s s' claimant message signature recovery_id public_key nonce :
  Step s (CClaim claimant message signature recovery_id public_key nonce) s' ->
  next_token_id s' = next_token_id s /\ max_tokens s' = max_tokens s /\
  public_key_of s' = public_key_of s /\
  token_id_by_public_key s' = token_id_by_public_key s /\
  (forall j, token_id_by_public_key s !! public_key <> Some j -> owner s' !! j = owner s !! j) /\
  (forall a, a <> claimant -> balance s' a = balance s a).
Proof.
  intros Hs. apply step_cases in Hs as [id Hm].
  apply claim_ok in Hm as (_ & _ & Hk & _ & b & _ & ->). simpl.
  do 4 (split; [done|]). split.
  - intros j Hj. rewrite lookup_insert_ne; [done|]. intros ->. by apply Hj.
  - intros a Ha. rewrite balance_set_balance, bool_decide_false by done. reflexivity.
Qed.

(** Extra property: what a successful transfer leaves alone.  It changes
    neither the token counter, the cap, nor the key bindings; it changes
    the owner of no other token, and the balance of no address other
    than [from] and [to]. *)
Theorem transfer_frame s s' from to token_id message signature recovery_id public_key nonce :
  Step s (CTransfer from to token_id message signature recovery_id public_key nonce) s' ->
  next_token_id s' = next_token_id s /\ max_tokens s' = max_tokens s /\
  public_key_of s' = public_key_of s /\
  token_id_by_public_key s' = token_id_by_public_key s /\
  (forall j, j <> token_id -> owner s' !! j = owner s !! j) /\
  (forall a, a <> from -> a <> to -> balance s' a = balance s a).
Proof.
  intros Hs. apply step_cases in Hs.
  apply transfer_ok in Hs as (_ & _ & _ & _ & fb & tb & _ & _ & ->). simpl.
  do 4 (split; [done|]). split.
  - intros j Hj. rewrite lookup_insert_ne; done.
  - intros a Ha Hb. rewrite !balance_set_balance, !bool_decide_false by done.
    reflexivity.
Qed.

(** Extra property: the number of tokens that have an owner grows by
    exactly one with each successful claim and is unchanged by every
    successful mint and transfer. *)
Theorem owned_tokens_step s c s' :
  Step s c s' ->
  owned_tokens s' = owned_tokens s + (match c with CClaim _ _ _ _ _ _ => 1 | _ => 0 end).
Proof.
  intros Hs. apply step_cases in Hs. destruct c.
  - destruct Hs as [id Hm]. apply mint_ok in Hm as (_ & _ & _ & _ & _ & ? & _ & ->).
    unfold owned_tokens. simpl. lia.
  - destruct Hs as [id Hm]. apply claim_ok in Hm as (_ & _ & _ & Hnone & ? & _ & ->).
    change (owned_tokens (set_balance claimant x (set_owner id claimant
              (set_chip_nonce public_key nonce s))))
      with (owned_tokens (set_owner id claimant s)).
    rewrite owned_tokens_set_owner, Hnone. reflexivity.
  - apply transfer_ok in Hs as (_ & _ & _ & Ho & fb & tb & _ & _ & ->).
    change (owned_tokens (set_balance to tb (set_balance from fb (set_owner token_id to
              (set_chip_nonce public_key nonce s)))))
      with (owned_tokens (set_owner token_id to s)).
    rewrite owned_tokens_set_owner, Ho. simpl. lia.
Qed.

(** Extra property: in every reachable state each owned token is a minted
    one (its id is below the token counter and a chip key is bound to
    it), so the number of owned tokens is at most the number of minted
    tokens, itself at most the cap. *)
Theorem owned_tokens_minted s :
  Reachable s ->
  exists n m, next_token_id s = Some n /\ max_tokens s = Some m /\
    owned_tokens s <= n <= m /\
    forall i a, owner s !! i = Some a -> 0 <= i < n /\ is_Some (public_key_of s !! i).
Proof. apply reachable_owned_le. Qed.


(** Extra property: in a reachable state with a base URI stored,
    [token_uri] succeeds exactly on the minted ids [0 .. next_token_id - 1],
    whether or not the token has been claimed. *)
Theorem token_uri_defined md base s :
  Reachable s -> md_uri md = Some base ->
  exists n, next_token_id s = Some n /\
    forall token_id, (exists u, token_uri md token_id s = Ok (s, u)) <-> 0 <= token_id < n.
Proof.
  intros Hr Hu.
  destruct (reachable_ids_inv _ _ _ s Hr) as (n & m & Hn & _ & _ & _ & Hd & _).
  exists n. split; [done|]. intros token_id. rewrite <- Hd.
  unfold token_uri. munfold. simpl. rewrite Hu.
  destruct (public_key_of s !! token_id); simpl.
  - split; eauto.
  - split; [intros [u Hx]; done | intros [? Hx]; done].
Qed.

(** Extra property: a token URI names its token.  For a [u64] id, a
    successful [token_uri] is 9 bytes longer than the base URI and its
    last 8 bytes decode ([u64::from_be_bytes]) to the id, so two tokens
    never share a URI. *)
Theorem token_uri_decodes md :
  (forall s s' token_id u, 0 <= token_id < 2 ^ 64 ->
     token_uri md token_id s = Ok (s', u) ->
     exists base, md_uri md = Some base /\ length u = (length base + 9)%nat /\
       from_be_bytes (skipn (S (length base)) u) = token_id) /\
  (forall s1 s2 s1' s2' id1 id2 u, 0 <= id1 < 2 ^ 64 -> 0 <= id2 < 2 ^ 64 ->
     token_uri md id1 s1 = Ok (s1', u) -> token_uri md id2 s2 = Ok (s2', u) -> id1 = id2).
Proof.
  assert (Hdec : forall s s' token_id u, 0 <= token_id < 2 ^ 64 ->
     token_uri md token_id s = Ok (s', u) ->
     exists base, md_uri md = Some base /\ length u = (length base + 9)%nat /\
       from_be_bytes (skipn (S (length base)) u) = token_id).
  { intros s s' token_id u Hid Hx. unfold token_uri in Hx. munfold.
    cbv beta iota in Hx.
    destruct (public_key_of s !! token_id); cbv beta iota in Hx; [|discriminate].
    destruct (md_uri md) as [base|]; cbv beta iota in Hx; [|discriminate].
    assert (Hu : u = base ++ [Byte.x2f] ++ be_bytes 8 token_id) by (inversion Hx; reflexivity).
    subst u. exists base. split; [done|]. split.
    - rewrite !length_app, length_be_bytes. cbn [length]. lia.
    - rewrite app_assoc.
      replace (S (length base)) with (length (base ++ [Byte.x2f]))
        by (rewrite length_app; cbn [length]; lia).
      rewrite List.skipn_app, List.skipn_all, Nat.sub_diag. cbn [app]. rewrite drop_0.
      rewrite from_be_bytes_be_bytes. apply Z.mod_small. exact Hid. }
  split; [exact Hdec|].
  intros s1 s2 s1' s2' id1 id2 u H1 H2 Hx1 Hx2.
  destruct (Hdec _ _ _ _ H1 Hx1) as (b1 & Hb1 & _ & D1).
  destruct (Hdec _ _ _ _ H2 Hx2) as (b2 & Hb2 & _ & D2).
  rewrite Hb1 in Hb2. injection Hb2 as <-. congruence.
Qed.

End Extras.

Section ExtrasChecked.

Variable sha256 : list Byte.byte -> Z.
Variable secp256k1_recover : Z -> Z -> Z -> option Z.

(** Extra property: in a build with overflow checks, in every reachable
    state no address holds a negative balance or more tokens than have
    been minted, and the stored balances add up to at most the number of
    minted tokens, itself at most the cap. *)
Theorem balances_bounded s :
  reachable sha256 secp256k1_recover true s ->
  exists n m, next_token_id s = Some n /\ max_tokens s = Some m /\
    balance_sum s <= n <= m /\ forall a, 0 <= balance s a <= n.
Proof.
  intros Hr.
  destruct (reachable_owned_le _ _ _ s Hr) as (n & m & Hn & Hm & Hle & _).
  destruct (reachable_balance_inv _ _ s Hr) as [Hcount Hsum].
  exists n, m. split; [done|]. split; [done|]. split; [lia|].
  intros a. rewrite Hcount. unfold owned_count. split; [lia|].
  unfold owned_tokens in Hle.
  assert (Hs : (size (filter (fun kv : Z * Z => kv.2 = a) (owner s)) <= size (owner s))%nat)
    by (apply map_subseteq_size, map_filter_subseteq).
  lia.
Qed.

End ExtrasChecked.


(** ** Witnesses of the further properties *)

Lemma chip_nonce_monotone_witness :
  get_nonce (construct 2) (call_public_key (CMint m1 K1 0 K1 1))
  < get_nonce (fst sc1) (call_public_key (CMint m1 K1 0 K1 1)).
Proof.
  apply (proj1 (chip_nonce_monotone toy_sha256 toy_recover true)).
  exists (Some 0). vm_compute. reflexivity.
Defined.

Lemma nonce_zero_rejected_witness :
  toy_run (CClaim addrA m1 K1 0 K1 0) (fst sc1) = (fst sc1, Err (Contract InvalidSignature)).
Proof.
  unfold toy_run. apply (nonce_zero_rejected toy_sha256 toy_recover true).
  - exact reachable_sc1.
  - reflexivity.
Defined.


Lemma mint_leaves_ownership_witness :
  owner (fst sc1) = owner (construct 2) /\ balances (fst sc1) = balances (construct 2) /\
  owner (fst sc1) !! 0 = None.
Proof.
  apply (mint_leaves_ownership toy_sha256 toy_recover true (construct 2) (fst sc1) 0
           m1 K1 0 K1 1).
  - apply reach_init. split; [lia|]. apply Z.ltb_lt. vm_compute. reflexivity.
  - vm_compute. reflexivity.
Defined.

Lemma claim_frame_witness :
  next_token_id (fst sc2) = next_token_id (fst sc1) /\
  public_key_of (fst sc2) = public_key_of (fst sc1) /\
  balance (fst sc2) addrB = balance (fst sc1) addrB.
Proof.
  assert (Hs : step toy_sha256 toy_recover true (fst sc1) (CClaim addrA m1 K1 0 K1 2) (fst sc2))
    by (exists (Some 0); vm_compute; reflexivity).
  destruct (claim_frame toy_sha256 toy_recover true _ _ _ _ _ _ _ _ Hs)
    as (H1 & _ & H3 & _ & _ & H6).
  split; [exact H1|]. split; [exact H3|]. apply H6. unfold addrA, addrB. lia.
Defined.

Lemma transfer_frame_witness :
  next_token_id (fst sc4) = next_token_id (fst sc2) /\
  token_id_by_public_key (fst sc4) = token_id_by_public_key (fst sc2) /\
  balance (fst sc4) 300 = balance (fst sc2) 300.
Proof.
  assert (Hs : step toy_sha256 toy_recover true (fst sc2)
                 (CTransfer addrA addrB 0 m1 K1 0 K1 4) (fst sc4))
    by (exists None; vm_compute; reflexivity).
  destruct (transfer_frame toy_sha256 toy_recover true _ _ _ _ _ _ _ _ _ _ Hs)
    as (H1 & _ & _ & H4 & _ & H6).
  split; [exact H1|]. split; [exact H4|]. apply H6; unfold addrA, addrB; lia.
Defined.

Lemma owned_tokens_step_witness :
  owned_tokens (fst sc2) = owned_tokens (fst sc1) + 1.
Proof.
  apply (owned_tokens_step toy_sha256 toy_recover true (fst sc1) (CClaim addrA m1 K1 0 K1 2)).
  exists (Some 0). vm_compute. reflexivity.
Defined.

Lemma owned_tokens_minted_witness :
  exists n m, next_token_id (fst sc2) = Some n /\ max_tokens (fst sc2) = Some m /\
    owned_tokens (fst sc2) <= n <= m /\
    forall i a, owner (fst sc2) !! i = Some a -> 0 <= i < n /\
      is_Some (public_key_of (fst sc2) !! i).
Proof.
  apply (owned_tokens_minted toy_sha256 toy_recover true). exact reachable_sc2.
Defined.


Lemma token_uri_defined_witness :
  exists n, next_token_id (fst sc2) = Some n /\
    forall token_id, (exists u, token_uri md1 token_id (fst sc2) = Ok (fst sc2, u))
                     <-> 0 <= token_id < n.
Proof.
  apply (token_uri_defined toy_sha256 toy_recover true md1 [Byte.x61; Byte.x62]).
  - exact reachable_sc2.
  - reflexivity.
Defined.

Lemma token_uri_decodes_witness :
  exists base, md_uri md1 = Some base /\
    length [Byte.x61; Byte.x62; Byte.x2f; Byte.x00; Byte.x00; Byte.x00; Byte.x00;
            Byte.x00; Byte.x00; Byte.x00; Byte.x00] = (length base + 9)%nat /\
    from_be_bytes (skipn (S (length base))
      [Byte.x61; Byte.x62; Byte.x2f; Byte.x00; Byte.x00; Byte.x00; Byte.x00;
       Byte.x00; Byte.x00; Byte.x00; Byte.x00]) = 0.
Proof.
  apply (proj1 (token_uri_decodes md1) (fst sc1) (fst sc1) 0).
  - lia.
  - vm_compute. reflexivity.
Defined.

Lemma balances_bounded_witness :
  exists n m, next_token_id (fst sc2) = Some n /\ max_tokens (fst sc2) = Some m /\
    balance_sum (fst sc2) <= n <= m /\ forall a, 0 <= balance (fst sc2) a <= n.
Proof.
  apply (balances_bounded toy_sha256 toy_recover). exact reachable_sc2.
Defined.


(** Witness of the amended C2: the verification of scenario 1. *)
Lemma nonce_committed_only_on_success_witness :
  set_chip_nonce K1 1 (construct 2) = set_chip_nonce K1 1 (construct 2) /\
  get_nonce (set_chip_nonce K1 1 (construct 2)) K1 = 1.
Proof.
  apply (proj1 (nonce_committed_only_on_success toy_sha256 toy_recover true)
           (construct 2) (set_chip_nonce K1 1 (construct 2)) tt m1 K1 0).
  vm_compute. reflexivity.
Defined.
